(** * geotorch: the Hurwitz manifold (src/geotorch/hurwitz.py)

    A shallow embedding of the class [Hurwitz] in exact arithmetic over an
    ordered field, with the external numeric routines (torch.linalg.eigvals,
    the cvxpy solve, the sub-manifolds PSD and Skew) as oracles.  The
    float32 arithmetic the tensors of the code are computed in is modelled
    apart, in [Float32]. *)

From HB Require Import structures.
From mathcomp Require Import boot order algebra.
From Stdlib Require Import String.

Set Implicit Arguments.
Unset Strict Implicit.
Unset Printing Implicit Defensive.

Import GRing.Theory Num.Theory Order.POrderTheory Order.TotalTheory.
Local Open Scope ring_scope.

(** ** Python values: exceptions and results *)

(** The exception classes the module raises.  [VectorError],
    [NonSquareError] and [InManifoldError] come from geotorch.exceptions,
    [ValueError] is the builtin one; [ExternalError] stands for whatever an
    external library (torch, numpy, cvxpy) raises by itself. *)
Inductive exn : Type :=
  | VectorError (cls : string) (size : seq nat)
  | NonSquareError (cls : string) (size : seq nat)
  | InManifoldError
  | ValueError (msg : string)
  | ExternalError (lib : string).

Inductive result (T : Type) : Type :=
  | Ok (v : T)
  | Error (e : exn).
Arguments Ok {T} v.
Arguments Error {T} e.

Definition is_ok T (r : result T) : bool :=
  if r is Ok _ then true else false.

Definition is_InManifoldError (e : exn) : bool :=
  if e is InManifoldError then true else false.

(** The tests of the repository catch [VectorError] and [NonSquareError]
    with [assertRaises(ValueError)]: they are subclasses of [ValueError]. *)
Definition isinstance_ValueError (e : exn) : bool :=
  match e with
  | VectorError _ _ | NonSquareError _ _ | InManifoldError | ValueError _ => true
  | ExternalError _ => false
  end.

(** Python's [s[-2:]] and [s[:-2]] on a tuple. *)
Definition last2 (T : Type) (s : seq T) : seq T := drop (size s - 2) s.
Definition but_last2 (T : Type) (s : seq T) : seq T := take (size s - 2) s.

(** A call trace of the external routines, threaded through the code that
    makes them, next to the exception or the value the code ends with. *)
Section Effects.

Variable event : Type.

Definition M (T : Type) : Type := seq event -> result T * seq event.

Definition ret T (v : T) : M T := fun log => (Ok v, log).
Definition raise T (e : exn) : M T := fun log => (Error e, log).
Definition bind T U (c : M T) (k : T -> M U) : M U :=
  fun log => match c log with
             | (Ok v, log') => k v log'
             | (Error e, log') => (Error e, log')
             end.
Definition emit (ev : event) : M unit := fun log => (Ok tt, rcons log ev).
Definition lift T (r : result T) : M T := fun log => (r, log).

(** What a call returns or raises, and the external calls it made. *)
Definition outcome T (c : M T) : result T := (c [::]).1.
Definition trace T (c : M T) : seq event := (c [::]).2.

End Effects.

Arguments ret {event T} v.
Arguments raise {event T} e.
Arguments lift {event T} r.

Notation "x <- c ;; k" := (bind c (fun x => k))
  (at level 100, c at next level, right associativity).
Notation "c ;;; k" := (bind c (fun _ => k))
  (at level 100, right associativity).

(** ** The model *)

Section Model.

Variable R : realFieldType.

(** Python floats are read as exact numbers of the field. *)
Definition half : R := 2%:R^-1.
Definition float_1e_8 : R := (10%:R ^+ 8)^-1.
Definition float_1e_6 : R := (10%:R ^+ 6)^-1.
Definition float_1e_4 : R := (10%:R ^+ 4)^-1.

(** A complex number, as [(real part, imaginary part)]. *)
Definition complex : Type := (R * R)%type.
Definition real (z : complex) : R := z.1.

(** *** Tensors: batches of matrices *)

(** A torch tensor with at least two dimensions: [batch] is the leading
    shape and [mats] the matrices of the batch, in row-major order of
    their index. *)
Record tensor (m k : nat) : Type := Tensor {
  batch : seq nat;
  mats : seq 'M[R]_(m, k)
}.

(** [A.size()]. *)
Definition tensor_size m k (A : tensor m k) : seq nat :=
  batch A ++ [:: m; k].

Definition well_shaped m k (A : tensor m k) : bool :=
  size (mats A) == \prod_(d <- batch A) d.

(** A matrix as a tensor without batch dimensions, and back. *)
Definition of_matrix m k (A : 'M[R]_(m, k)) : tensor m k :=
  Tensor [::] [:: A].

(** Element-wise lifting of a unary operation. *)
Definition tmap m k m' k' (f : 'M[R]_(m, k) -> 'M[R]_(m', k'))
    (A : tensor m k) : tensor m' k' :=
  Tensor (batch A) [seq f a | a <- mats A].

(** Lifting of a binary operation: an operand without batch dimensions is
    broadcast over the batch of the other one, two batches of one shape go
    element by element.  On two batches of different shapes torch raises or
    broadcasts; the model is not meant for them. *)
Definition tmap2 m k m' k' m'' k''
    (f : 'M[R]_(m, k) -> 'M[R]_(m', k') -> 'M[R]_(m'', k''))
    (A : tensor m k) (B : tensor m' k') : tensor m'' k'' :=
  match batch B, mats B, batch A, mats A with
  | [::], [:: b], _, _ => Tensor (batch A) [seq f a b | a <- mats A]
  | _, _, [::], [:: a] => Tensor (batch B) [seq f a b | b <- mats B]
  | _, _, _, _ =>
      Tensor (batch A) [seq f ab.1 ab.2 | ab <- zip (mats A) (mats B)]
  end.

(** [A @ B], [A + B], [A - B], [c * A], [A.transpose(-2, -1)]. *)
Definition matmul m k l (A : tensor m k) (B : tensor k l) : tensor m l :=
  tmap2 (@mulmx R m k l) A B.
Definition tadd m k (A B : tensor m k) : tensor m k :=
  tmap2 (fun a b => a + b) A B.
Definition tsub m k (A B : tensor m k) : tensor m k :=
  tmap2 (fun a b => a - b) A B.
Definition tscale m k (c : R) (A : tensor m k) : tensor m k :=
  tmap (fun a => c *: a) A.
Definition transpose m k (A : tensor m k) : tensor k m :=
  tmap (@trmx R m k) A.

(** [torch.eye(n)]. *)
Definition eye (d : nat) : tensor d d := of_matrix 1%:M.

(** [torch.empty] at shape [shape + (m, k)] and [torch.empty_like]: the content
    is unspecified, zero is taken. *)
Definition empty (shape : seq nat) (m k : nat) : tensor m k :=
  Tensor shape (nseq (\prod_(d <- shape) d) 0).
Definition empty_like m k (A : tensor m k) : tensor m k :=
  Tensor (batch A) (nseq (size (mats A)) 0).

(** *** Matrix properties *)

Definition dotp d (x y : 'rV[R]_d) : R := (x *m y^T) 0 0.

(** The form [x A yT] of a matrix. *)
Definition quad_form d (A : 'M[R]_d) (x y : 'rV[R]_d) : R :=
  (x *m A *m y^T) 0 0.

Definition symmetric d (A : 'M[R]_d) : Prop := A^T = A.
Definition skew_symmetric d (A : 'M[R]_d) : Prop := A^T = - A.

(** [x A xT >= 0] for every [x]: what cvxpy's [>>] asks of a matrix. *)
Definition psd_form d (A : 'M[R]_d) : Prop :=
  forall x : 'rV[R]_d, 0 <= quad_form A x x.

(** Positive semi-definite: symmetric with a nonnegative form. *)
Definition is_psd d (A : 'M[R]_d) : Prop := symmetric A /\ psd_form A.

(** [z = a + ib] is an eigenvalue of the real matrix [A]: some nonzero
    [x + iy] has [(x + iy) A = (a + ib) (x + iy)], in real and imaginary
    parts. *)
Definition eigen d (A : 'M[R]_d) (z : complex) : Prop :=
  exists x y : 'rV[R]_d,
    [/\ (x != 0) || (y != 0),
        x *m A = z.1 *: x - z.2 *: y
      & y *m A = z.2 *: x + z.1 *: y].

(** *** External routines *)

(** A cvxpy problem over one matrix variable [P] of size [d]: expressions
    are functions of the value of [P]. *)
Inductive constraint (d : nat) : Type :=
  | Matrix_le (lhs rhs : 'M[R]_d -> 'M[R]_d)   (* lhs << rhs *)
  | Matrix_ge (lhs rhs : 'M[R]_d -> 'M[R]_d).  (* lhs >> rhs *)

Inductive objective_t (d : nat) : Type :=
  | Minimize (expr : 'M[R]_d -> R)
  | Maximize (expr : 'M[R]_d -> R).

Record Problem (d : nat) : Type := MkProblem {
  variable_PSD : bool;             (* Variable(..., PSD=True) *)
  objective : objective_t d;
  constraints : seq (constraint d)
}.

(** The calls to external numeric routines that the trace records. *)
Inductive event : Type :=
  | Eigvals m k (A : tensor m k)
  | Solve d (solver : string) (prob : Problem d).

Definition is_eigvals (ev : event) : bool :=
  if ev is Eigvals _ _ _ then true else false.
Definition is_solve (ev : event) : bool :=
  if ev is Solve _ _ _ then true else false.

(** The solver calls of a trace. *)
Definition solves (log : seq event) : seq event := [seq ev <- log | is_solve ev].

(** [torch.linalg.eigvals]: the eigenvalues of every matrix of the batch,
    or [None] when torch raises. *)
Variable eigvals : forall m k, tensor m k -> option (seq complex).

(** [prob.solve(solver)]: the status and the value of the variable, or
    [None] when cvxpy raises. *)
Variable cvx_solve :
  forall d, string -> Problem d -> option (string * option 'M[R]_d).

Definition call_eigvals m k (A : tensor m k) : M event (seq complex) :=
  emit (Eigvals A) ;;;
  if eigvals A is Some eig then ret eig
  else raise (ExternalError "torch.linalg.eigvals").

Definition call_solve d (solver : string) (prob : Problem d)
  : M event (string * option 'M[R]_d) :=
  emit (Solve solver prob) ;;;
  if cvx_solve solver prob is Some r then ret r
  else raise (ExternalError "cvxpy").

(** [torch.inverse] raises on a singular matrix. *)
Definition inverse d (A : 'M[R]_d) : result 'M[R]_d :=
  if A \in unitmx then Ok (invmx A)
  else Error (ExternalError "torch.inverse").

(** [A.detach().numpy()] as the one matrix the solve is written for.  A
    tensor with batch dimensions is outside the model: what numpy and cvxpy
    make of [A.T @ P + P @ A] there depends on their version, and the model
    ends such a run with an error; no statement below is about it. *)
Definition numpy d (A : tensor d d) : result 'M[R]_d :=
  match batch A, mats A with
  | [::], [:: a] => Ok a
  | _, _ => Error (ExternalError "cvxpy")
  end.

(** *** Sub-manifolds *)

(** The interface of a manifold on [d x d] matrices, as [Hurwitz] uses
    it: [forward] and [right_inverse]. *)
Record Manifold (d : nat) : Type := MkManifold {
  m_forward : tensor d d -> tensor d d;
  m_right_inverse : tensor d d -> result (tensor d d)
}.

(** Modelled from the spec: [ProductManifold.forward] of geotorch.product,
    positional dispatch of element [i] to the forward map of sub-manifold
    [i]. *)
Definition product_forward d (Ms : seq (Manifold d)) (Xs : seq (tensor d d))
  : seq (tensor d d) :=
  [seq m_forward MX.1 MX.2 | MX <- zip Ms Xs].

(** Modelled from the spec: [ProductManifold.right_inverse] of
    geotorch.product, the same positional dispatch over the right inverses;
    the first exception a sub-manifold raises ends the call. *)
Fixpoint product_right_inverse d (Ms : seq (Manifold d))
    (Xs : seq (tensor d d)) : result (seq (tensor d d)) :=
  match Ms, Xs with
  | Mi :: Ms', X :: Xs' =>
      match m_right_inverse Mi X with
      | Error e => Error e
      | Ok Y =>
          match product_right_inverse Ms' Xs' with
          | Error e => Error e
          | Ok Ys => Ok (Y :: Ys)
          end
      end
  | _, _ => Ok [::]
  end.

(** *** The Hurwitz instance *)

(** The retraction argument [triv] (a name or a callable) is only handed on
    to the PSD sub-manifolds. *)
Variable triv_t : Type.

(** The constructors [PSD(size, triv=triv)] of geotorch.psd and [Skew()]
    of geotorch.skew, as oracles: the manifold built, or the exception. *)
Variable PSD : forall d, seq nat -> triv_t -> result (Manifold d).
Variable Skew : forall d, Manifold d.

(** What a [Hurwitz] instance holds: the sub-manifolds of the product it
    extends, [self.n], [self.tensorial_size], [self.alpha];
    [self.In = torch.eye(n)] is [In self]. *)
Record Hurwitz : Type := MkHurwitz {
  n : nat;
  product : seq (Manifold n);
  tensorial_size : seq nat;
  alpha : R
}.

Definition In (self : Hurwitz) : tensor (n self) (n self) := eye (n self).

Definition cls_name : string := "Hurwitz".

(** [Hurwitz.parse_size]. *)
Definition parse_size (size_ : seq nat) : result (nat * seq nat) :=
  if (size size_ < 2)%N then Error (VectorError cls_name size_)
  else
    match last2 size_ with
    | [:: d; k] =>
        let tensorial_size := but_last2 size_ in
        if d != k then Error (NonSquareError cls_name size_)
        else Ok (d, tensorial_size)
    | _ => Error (ValueError "unpack")
    end.

(** [Hurwitz.manifolds]. *)
Definition manifolds (d : nat) (tensorial_size : seq nat) (triv : triv_t)
  : result (seq (Manifold d)) :=
  let size_p := tensorial_size ++ [:: d; d] in
  let size_q := tensorial_size ++ [:: d; d] in
  match PSD d size_q triv with
  | Error e => Error e
  | Ok Mq =>
      match PSD d size_p triv with
      | Error e => Error e
      | Ok Mp => Ok [:: Mq; Mp; Skew d]
      end
  end.

Definition alpha_msg : string := "Alpha must be positive found".

(** [Hurwitz.__init__]. *)
Definition __init__ (size_ : seq nat) (alpha : R) (triv : triv_t)
  : result Hurwitz :=
  match parse_size size_ with
  | Error e => Error e
  | Ok (d, tensorial_size) =>
      match manifolds d tensorial_size triv with
      | Error e => Error e
      | Ok Ms =>
          if alpha <= 0 then Error (ValueError alpha_msg)
          else Ok (MkHurwitz Ms tensorial_size alpha)
      end
  end.

(** [Hurwitz.submersion]: [P @ (-0.5 * Q + S) - self.alpha * self.In]. *)
Definition submersion (self : Hurwitz) (Q P S : tensor (n self) (n self))
  : tensor (n self) (n self) :=
  tsub (matmul P (tadd (tscale (- half) Q) S))
       (tscale (alpha self) (In self)).
Arguments submersion self Q P S : clear implicits.

(** The same formula on one matrix of the batch. *)
Definition submersion_mx d (a : R) (Q P S : 'M[R]_d) : 'M[R]_d :=
  P *m ((- half) *: Q + S) - a *: 1%:M.

(** [Hurwitz.forward]. *)
Definition forward (self : Hurwitz) (X1 X2 X3 : tensor (n self) (n self))
  : result (tensor (n self) (n self)) :=
  match product_forward (product self) [:: X1; X2; X3] with
  | [:: Q; P; S_] => Ok (submersion self Q P S_)
  | _ => Error (ValueError "unpack")
  end.
Arguments forward self X1 X2 X3 : clear implicits.

(** [Hurwitz.in_manifold_eigen]. *)
Definition in_manifold_eigen (self : Hurwitz) m k (A : tensor m k) (eps : R)
  : M event bool :=
  if but_last2 (tensor_size A) != tensorial_size self then ret false
  else
    eig <- call_eigvals A ;;
    let reig := [seq real z | z <- eig] in
    ret (all (fun r => r <= - alpha self + eps) reig).

Definition infeasible_or_unbounded (status : string) : bool :=
  (String.eqb status "infeasible" || String.eqb status "unbounded")%bool.

Definition sdp_msg : string := "SDP problem is infeasible or unbounded".

(** The expression [A.T @ P + P @ A + 2 * self.alpha * P]. *)
Definition lyapunov (self : Hurwitz) (A P : 'M[R]_(n self)) : 'M[R]_(n self) :=
  A^T *m P + P *m A + (2%:R * alpha self) *: P.
Arguments lyapunov self A P : clear implicits.

(** The problem [submersion_inv] hands to the solver. *)
Definition sdp (self : Hurwitz) (A : 'M[R]_(n self)) (epsilon : R)
  : Problem (n self) :=
  let Q := lyapunov self A in
  let constraints :=
    [:: Matrix_le Q (fun _ => (- epsilon) *: 1%:M);
        Matrix_ge (fun P => P - epsilon *: 1%:M) (fun _ => 0)] in
  let objective := Minimize (fun _ => 0) in
  MkProblem true objective constraints.
Arguments sdp self A epsilon : clear implicits.

(** [Hurwitz.submersion_inv]. *)
Definition submersion_inv (self : Hurwitz) (A : tensor (n self) (n self))
    (check_in_manifold : bool) (epsilon : R) (solver : string)
  : M event (tensor (n self) (n self) * tensor (n self) (n self)
             * tensor (n self) (n self)) :=
  (if check_in_manifold then
     ok <- in_manifold_eigen self A epsilon ;;
     if ~~ ok then raise InManifoldError else ret tt
   else ret tt) ;;;
  A_ <- lift (numpy A) ;;
  let prob := sdp self A_ epsilon in
  sol <- call_solve solver prob ;;
  (if ~~ infeasible_or_unbounded sol.1 then ret tt
   else raise (ValueError sdp_msg)) ;;;
  P_value <- (if sol.2 is Some P then ret P
              else raise (ExternalError "numpy")) ;;
  P_inv <- lift (inverse P_value) ;;
  let Q := - lyapunov self A_ P_value in
  let S := P_value *m A_ + half *: Q + alpha self *: P_value in
  ret (of_matrix Q, of_matrix P_inv, of_matrix S).
Arguments submersion_inv self A check_in_manifold epsilon solver : clear implicits.

(** [Hurwitz.right_inverse]: [submersion_inv] runs with its defaults
    [epsilon=1e-8] and [solver="MOSEK"]. *)
Definition right_inverse (self : Hurwitz) (A : tensor (n self) (n self))
    (check_in_manifold : bool)
  : M event (tensor (n self) (n self) * tensor (n self) (n self)
             * tensor (n self) (n self)) :=
  QPS <- submersion_inv self A check_in_manifold float_1e_8 "MOSEK" ;;
  let '(Q, P, S_) := QPS in
  Xs <- lift (product_right_inverse (product self) [:: Q; P; S_]) ;;
  match Xs with
  | [:: X1; X2; X3] => ret (X1, X2, X3)
  | _ => raise (ValueError "unpack")
  end.
Arguments right_inverse self A check_in_manifold : clear implicits.

(** An initializer [init_] draws the matrices of a tensor in place, from a
    random state it advances. *)
Variable rng : Type.

Fixpoint draw d (init_ : rng -> 'M[R]_d * rng) (count : nat) (g : rng)
  : seq 'M[R]_d * rng :=
  match count with
  | 0%N => ([::], g)
  | count'.+1 =>
      let (a, g1) := init_ g in
      let (r, g2) := draw init_ count' g1 in
      (a :: r, g2)
  end.

Definition fill d (init_ : rng -> 'M[R]_d * rng) (X : tensor d d) (g : rng)
  : tensor d d * rng :=
  let (ms, g') := draw init_ (size (mats X)) g in
  (Tensor (batch X) ms, g').

(** [Hurwitz.sample]. *)
Definition sample (self : Hurwitz)
    (init_ : rng -> 'M[R]_(n self) * rng) (g : rng)
  : tensor (n self) (n self) * rng :=
  let X_p := empty (tensorial_size self) (n self) (n self) in
  let (X_p, g) := fill init_ X_p g in
  let X_q := empty_like X_p in
  let (X_q, g) := fill init_ X_q g in
  let X_s := empty_like X_p in
  let (X_s, g) := fill init_ X_s g in
  let P := matmul X_p (transpose X_p) in
  let Q := matmul X_q (transpose X_q) in
  let S := tsub X_s (transpose X_s) in
  (tsub (matmul P (tadd (tscale (- half) Q) S))
        (tscale (alpha self) (In self)), g).
Arguments sample self init_ g : clear implicits.

(** *** What the external routines are taken to do *)

(** [torch.linalg.eigvals] on square matrices: it returns eigenvalues of
    the matrices of the batch, all of them, and it does not raise. *)
Definition eigvals_sound (d : nat) : Prop :=
  forall (A : tensor d d) eig, eigvals A = Some eig ->
  forall z, z \in eig -> exists2 a, a \in mats A & eigen a z.

Definition eigvals_complete (d : nat) : Prop :=
  forall (A : tensor d d) eig, eigvals A = Some eig ->
  forall a z, a \in mats A -> eigen a z -> z \in eig.

Definition eigvals_total (d : nat) : Prop :=
  forall A : tensor d d, isSome (eigvals A).

(** What a constraint asks of a value of the variable, and what it is to
    be feasible for a problem. *)
Definition holds d (c : constraint d) (P : 'M[R]_d) : Prop :=
  match c with
  | Matrix_le lhs rhs => psd_form (rhs P - lhs P)
  | Matrix_ge lhs rhs => psd_form (lhs P - rhs P)
  end.

Fixpoint all_hold d (cs : seq (constraint d)) (P : 'M[R]_d) : Prop :=
  if cs is c :: cs' then holds c P /\ all_hold cs' P else True.

Definition feasible d (prob : Problem d) (P : 'M[R]_d) : Prop :=
  (variable_PSD prob -> is_psd P) /\ all_hold (constraints prob) P.

(** The solver, when it does not report the problem infeasible or
    unbounded, leaves a feasible value in the variable. *)
Definition solver_sound (d : nat) : Prop :=
  forall solver (prob : Problem d) status P,
    cvx_solve solver prob = Some (status, Some P) ->
    ~~ infeasible_or_unbounded status -> feasible prob P.

(** Positive definite: symmetric, with a positive form off zero. *)
Definition is_pd d (A : 'M[R]_d) : Prop :=
  symmetric A /\ forall x : 'rV[R]_d, x != 0 -> 0 < quad_form A x x.

(** The right inverse of a sub-manifold, on tensors whose matrices all
    have the property [on]: it returns a tensor that [forward] maps back. *)
Definition right_inverse_on d (Mf : Manifold d) (on : 'M[R]_d -> Prop) : Prop :=
  forall X : tensor d d, (forall a, a \in mats X -> on a) ->
  exists2 Y, m_right_inverse Mf X = Ok Y & m_forward Mf Y = X.

(** A right inverse that checks its argument returns only tensors that
    [forward] maps back to it. *)
Definition right_inverse_sound d (Mf : Manifold d) : Prop :=
  forall X Y : tensor d d, m_right_inverse Mf X = Ok Y -> m_forward Mf Y = X.

(** The forward maps of the sub-manifolds: PSD builds positive
    semi-definite matrices, Skew skew-symmetric ones, both of the shape of
    their argument. *)
Definition psd_valued d (Mf : Manifold d) : Prop :=
  forall X a, a \in mats (m_forward Mf X) -> is_psd a.

Definition skew_valued d (Mf : Manifold d) : Prop :=
  forall X a, a \in mats (m_forward Mf X) -> skew_symmetric a.

Definition shape_preserving d (Mf : Manifold d) : Prop :=
  forall X, batch (m_forward Mf X) = batch X.

(** ** Properties *)

(** *** Linear algebra over the ordered field *)

Lemma dotpE d (x y : 'rV[R]_d) : dotp x y = \sum_j x 0 j * y 0 j.
Proof. by rewrite /dotp mxE; apply: eq_bigr => j _; rewrite mxE. Qed.

Lemma dotpC d (x y : 'rV[R]_d) : dotp x y = dotp y x.
Proof. by rewrite !dotpE; apply: eq_bigr => j _; rewrite mulrC. Qed.

Lemma dotpDl d (x1 x2 y : 'rV[R]_d) : dotp (x1 + x2) y = dotp x1 y + dotp x2 y.
Proof. by rewrite /dotp mulmxDl mxE. Qed.

Lemma dotpZl d (c : R) (x y : 'rV[R]_d) : dotp (c *: x) y = c * dotp x y.
Proof. by rewrite /dotp -scalemxAl mxE. Qed.

Lemma dotpNl d (x y : 'rV[R]_d) : dotp (- x) y = - dotp x y.
Proof. by rewrite /dotp mulNmx mxE. Qed.

Lemma dotp0l d (y : 'rV[R]_d) : dotp 0 y = 0.
Proof. by rewrite /dotp mul0mx mxE. Qed.

Lemma dotp_ge0 d (x : 'rV[R]_d) : 0 <= dotp x x.
Proof. by rewrite dotpE; apply: sumr_ge0 => j _; rewrite -expr2 sqr_ge0. Qed.

Lemma dotp_eq0 d (x : 'rV[R]_d) : dotp x x = 0 -> x = 0.
Proof.
rewrite dotpE => /eqP; rewrite psumr_eq0 => [j _|]; first by rewrite -expr2 sqr_ge0.
move/allP => H; apply/rowP => j; rewrite mxE.
by have := H j (mem_index_enum _); rewrite /= mulf_eq0 orbb => /eqP.
Qed.

Lemma dotp_mulmx d (A : 'M[R]_d) (x y : 'rV[R]_d) :
  dotp (x *m A) y = dotp x (y *m A^T).
Proof. by rewrite /dotp trmx_mul trmxK mulmxA. Qed.


Lemma dotpDr d (x y1 y2 : 'rV[R]_d) : dotp x (y1 + y2) = dotp x y1 + dotp x y2.
Proof. by rewrite dotpC dotpDl !(dotpC x). Qed.

Lemma dotpZr d (c : R) (x y : 'rV[R]_d) : dotp x (c *: y) = c * dotp x y.
Proof. by rewrite dotpC dotpZl dotpC. Qed.

Lemma dotpNr d (x y : 'rV[R]_d) : dotp x (- y) = - dotp x y.
Proof. by rewrite dotpC dotpNl dotpC. Qed.

Lemma quad_formE d (A : 'M[R]_d) (x y : 'rV[R]_d) :
  quad_form A x y = dotp (x *m A) y.
Proof. by []. Qed.

Lemma quad_form_tr d (A : 'M[R]_d) (x y : 'rV[R]_d) :
  quad_form A^T x y = quad_form A y x.
Proof. by rewrite !quad_formE dotp_mulmx trmxK dotpC. Qed.

Lemma quad_formDm d (A B : 'M[R]_d) (x y : 'rV[R]_d) :
  quad_form (A + B) x y = quad_form A x y + quad_form B x y.
Proof. by rewrite !quad_formE mulmxDr dotpDl. Qed.

Lemma quad_formZm d (c : R) (A : 'M[R]_d) (x y : 'rV[R]_d) :
  quad_form (c *: A) x y = c * quad_form A x y.
Proof. by rewrite !quad_formE -scalemxAr dotpZl. Qed.

Lemma quad_formNm d (A : 'M[R]_d) (x y : 'rV[R]_d) :
  quad_form (- A) x y = - quad_form A x y.
Proof. by rewrite !quad_formE mulmxN dotpNl. Qed.

Lemma quad_form_skew d (S : 'M[R]_d) (x : 'rV[R]_d) :
  skew_symmetric S -> quad_form S x x = 0.
Proof.
move=> skS; have := quad_form_tr S x x; rewrite skS quad_formNm => E.
lra.
Qed.

Lemma quad_form_sym d (P : 'M[R]_d) (x y : 'rV[R]_d) :
  symmetric P -> quad_form P x y = quad_form P y x.
Proof. by move=> symP; rewrite -quad_form_tr symP. Qed.

(** A Gram matrix [X XT] is positive semi-definite. *)
Lemma gram_psd d (X : 'M[R]_d) : is_psd (X *m X^T).
Proof.
split; first by rewrite /symmetric trmx_mul trmxK.
by move=> x; rewrite quad_formE mulmxA dotp_mulmx trmxK dotp_ge0.
Qed.

Lemma anti_skew d (X : 'M[R]_d) : skew_symmetric (X - X^T).
Proof. by rewrite /skew_symmetric linearB /= trmxK opprB. Qed.

Lemma quad_formDl d (A : 'M[R]_d) (x1 x2 y : 'rV[R]_d) :
  quad_form A (x1 + x2) y = quad_form A x1 y + quad_form A x2 y.
Proof. by rewrite !quad_formE mulmxDl dotpDl. Qed.

Lemma quad_formZl d (A : 'M[R]_d) (c : R) (x y : 'rV[R]_d) :
  quad_form A (c *: x) y = c * quad_form A x y.
Proof. by rewrite !quad_formE -scalemxAl dotpZl. Qed.

Lemma quad_formDr d (A : 'M[R]_d) (x y1 y2 : 'rV[R]_d) :
  quad_form A x (y1 + y2) = quad_form A x y1 + quad_form A x y2.
Proof. by rewrite !quad_formE dotpDr. Qed.

Lemma quad_formZr d (A : 'M[R]_d) (c : R) (x y : 'rV[R]_d) :
  quad_form A x (c *: y) = c * quad_form A x y.
Proof. by rewrite !quad_formE dotpZr. Qed.

(** A null vector of the form of a positive semi-definite matrix is in
    its kernel. *)
Lemma psd_null d (P : 'M[R]_d) (x : 'rV[R]_d) :
  is_psd P -> quad_form P x x = 0 -> x *m P = 0.
Proof.
move=> [symP psdP] qx0; apply: dotp_eq0.
set z := x *m P; set c := dotp z z.
have cE : quad_form P x z = c by [].
have := psdP ((quad_form P z z + 1) *: x + (- c) *: z).
rewrite quad_formDl !quad_formDr !quad_formZl !quad_formZr.
rewrite qx0 cE (quad_form_sym z x symP) cE.
have := psdP z; move: (quad_form P z z) => q q0 H.
suff c0: c ^+ 2 <= 0 by apply/eqP; rewrite -/c -sqrf_eq0 eq_le c0 sqr_ge0.
nra.
Qed.

(** The real parts of the eigenvalues of [P (-Q/2 + S)] are not positive. *)
Lemma eigen_stable d (Q P S : 'M[R]_d) (z : complex) :
  psd_form Q -> is_psd P -> skew_symmetric S ->
  eigen (P *m ((- half) *: Q + S)) z -> z.1 <= 0.
Proof.
move=> psdQ psdP skS [x [y [nz]]]; case: z => a b /=.
rewrite !mulmxA; set K := _ + S; set p := x *m P; set q := y *m P => E1 E2.
have symP := psdP.1.
have qK v : quad_form K v v = - 2%:R^-1 * quad_form Q v v.
  by rewrite quad_formDm quad_formZm (quad_form_skew v skS) addr0.
have F1 : quad_form K p p = a * quad_form P x x - b * quad_form P y x.
  rewrite quad_formE E1 dotpDl dotpNl !dotpZl (dotpC x) (dotpC y).
  by rewrite -!quad_formE (quad_form_sym x y symP).
have F2 : quad_form K q q = b * quad_form P y x + a * quad_form P y y.
  rewrite quad_formE E2 dotpDl !dotpZl (dotpC x) (dotpC y).
  by rewrite -!quad_formE.
have := psdP.2 x; have := psdP.2 y; have := psdQ p; have := psdQ q.
move: F1 F2; rewrite !qK.
case: (eqVneq (quad_form P x x + quad_form P y y) 0) => [s0|sn0].
  move=> _ _ _ _ y0 x0.
  have qx0 : quad_form P x x = 0 by lra.
  have qy0 : quad_form P y y = 0 by lra.
  have p0 : p = 0 by apply: psd_null.
  have q0 : q = 0 by apply: psd_null.
  move: E1 E2; rewrite p0 q0 !mul0mx => E1 E2.
  have X0 : (a ^+ 2 + b ^+ 2) *: x = 0.
    have -> : (a ^+ 2 + b ^+ 2) *: x
              = a *: (a *: x - b *: y) + b *: (b *: x + a *: y).
      by apply/rowP=> j; rewrite !mxE; ring.
    by rewrite -E1 -E2 !scaler0 addr0.
  have Y0 : (a ^+ 2 + b ^+ 2) *: y = 0.
    have -> : (a ^+ 2 + b ^+ 2) *: y
              = a *: (b *: x + a *: y) - b *: (a *: x - b *: y).
      by apply/rowP=> j; rewrite !mxE; ring.
    by rewrite -E1 -E2 !scaler0 subr0.
  have ab0 : a ^+ 2 + b ^+ 2 = 0.
    apply/eqP; move/eqP: X0; move/eqP: Y0; rewrite !scaler_eq0.
    by case/orP: nz => /negPf ->; rewrite ?orbF // => _.
  nra.
move: sn0; move: (quad_form P x x) (quad_form P y y) (quad_form Q p p)
  (quad_form Q q q) (quad_form P y x) (quad_form K p p) (quad_form K q q).
move=> sx sy qp qq c kp kq sn0 F1 F2 qq0 qp0 sy0 sx0.
have spos : 0 < sx + sy by rewrite lt_neqAle eq_sym sn0 addr_ge0.
nra.
Qed.

Lemma eigen_shift d (A : 'M[R]_d) (c : R) (z : complex) :
  eigen (A - c *: 1%:M) z -> eigen A (z.1 + c, z.2).
Proof.
move=> [x [y [nz E1 E2]]]; exists x, y; split=> //=.
  move: E1; rewrite mulmxBr -scalemxAr mulmx1 => /(canRL (subrK _)) ->.
  by rewrite scalerDl addrAC.
move: E2; rewrite mulmxBr -scalemxAr mulmx1 => /(canRL (subrK _)) ->.
by rewrite scalerDl addrA.
Qed.

(** *** Slicing *)

Lemma last2_cat (T : Type) (s : seq T) (x y : T) :
  last2 (s ++ [:: x; y]) = [:: x; y].
Proof. by rewrite /last2 size_cat /= addnK drop_size_cat. Qed.

Lemma but_last2_cat (T : Type) (s : seq T) (x y : T) :
  but_last2 (s ++ [:: x; y]) = s.
Proof. by rewrite /but_last2 size_cat /= addnK take_size_cat. Qed.

Lemma size2_split (T : Type) (s : seq T) :
  (2 <= size s)%N -> exists x y, s = but_last2 s ++ [:: x; y].
Proof.
move=> le2; have := size_drop (size s - 2) s; rewrite subKn // -/(last2 s).
have := cat_take_drop (size s - 2) s; rewrite -/(last2 s) -/(but_last2 s).
by case: (last2 s) => [|x [|y [|z r]]] E //= _; exists x, y.
Qed.

Lemma parse_size_cat (ts : seq nat) (d k : nat) :
  parse_size (ts ++ [:: d; k]) =
  if d != k then Error (NonSquareError cls_name (ts ++ [:: d; k]))
  else Ok (d, ts).
Proof.
by rewrite /parse_size size_cat /= addnC /= last2_cat but_last2_cat.
Qed.

Lemma parse_size_vector (size_ : seq nat) :
  (size size_ < 2)%N -> parse_size size_ = Error (VectorError cls_name size_).
Proof. by rewrite /parse_size => ->. Qed.

(** The batch shape is what [A.size()[:-2]] reads. *)
Lemma batch_of_size m k (A : tensor m k) : but_last2 (tensor_size A) = batch A.
Proof. exact: but_last2_cat. Qed.

(** *** Construction *)

Lemma init_square (ts : seq nat) (d : nat) (a : R) (triv : triv_t) :
  __init__ (ts ++ [:: d; d]) a triv =
  match PSD d (ts ++ [:: d; d]) triv with
  | Error e => Error e
  | Ok Mq => if a <= 0 then Error (ValueError alpha_msg)
             else Ok (MkHurwitz [:: Mq; Mq; Skew d] ts a)
  end.
Proof.
rewrite /__init__ parse_size_cat eqxx /= /manifolds.
by case: (PSD d _ triv).
Qed.

(** C7, as the code has it.  Construction contract of
    [Hurwitz(size, alpha, triv)]: a size with
    fewer than 2 dimensions raises [VectorError]; a size whose last two
    dimensions differ raises [NonSquareError]; [alpha <= 0] always ends in
    an exception, which is a [ValueError] (the one about alpha when the
    size is square and the PSD sub-manifolds accept it); a square size of
    at least 2 dimensions with [alpha > 0] constructs the instance, the
    PSD sub-manifolds accepting the size and the retraction. *)
Theorem init_contract (size_ : seq nat) (a : R) (triv : triv_t) :
  [/\ (size size_ < 2)%N ->
        __init__ size_ a triv = Error (VectorError cls_name size_),
      forall ts d k, size_ = ts ++ [:: d; k] -> d != k ->
        __init__ size_ a triv = Error (NonSquareError cls_name size_),
      a <= 0 ->
        (forall d e, PSD d size_ triv = Error e -> isinstance_ValueError e) ->
        exists2 e, __init__ size_ a triv = Error e & isinstance_ValueError e,
      forall ts d, size_ = ts ++ [:: d; d] -> is_ok (PSD d size_ triv) ->
        a <= 0 -> __init__ size_ a triv = Error (ValueError alpha_msg)
    & forall ts d Mq, size_ = ts ++ [:: d; d] -> PSD d size_ triv = Ok Mq ->
        0 < a ->
        __init__ size_ a triv = Ok (MkHurwitz [:: Mq; Mq; Skew d] ts a)].
Proof.
split.
- by move=> lt2; rewrite /__init__ parse_size_vector.
- by move=> ts d k -> /negPf dk; rewrite /__init__ parse_size_cat dk.
- move=> a0 psdV; case: (ltnP (size size_) 2) => [lt2|le2].
    by exists (VectorError cls_name size_); rewrite /__init__ ?parse_size_vector.
  have [d [k E]] := size2_split le2; move: psdV; rewrite E.
  case: (eqVneq d k) => [<-|/negPf dk] psdV.
    rewrite init_square; case PSDE: (PSD d _ triv) => [Mq|e].
      by rewrite a0; exists (ValueError alpha_msg).
    by exists e; rewrite ?(psdV _ _ PSDE).
  exists (NonSquareError cls_name (but_last2 size_ ++ [:: d; k])) => //.
  by rewrite /__init__ parse_size_cat dk.
- move=> ts d ->; rewrite init_square.
  by case: (PSD d _ triv) => // Mq _ ->.
- move=> ts d Mq -> psdE a0; rewrite init_square psdE.
  by rewrite leNgt a0.
Qed.

(** *** The membership test *)

Lemma in_manifold_eigen_run (self : Hurwitz) m k (A : tensor m k) (eps : R)
    (log : seq event) :
  in_manifold_eigen self A eps log =
  if batch A != tensorial_size self then (Ok false, log)
  else if eigvals A is Some eig
       then (Ok (all (fun z => real z <= - alpha self + eps) eig),
             rcons log (Eigvals A))
       else (Error (ExternalError "torch.linalg.eigvals"),
             rcons log (Eigvals A)).
Proof.
rewrite /in_manifold_eigen batch_of_size; case: ifP => // _.
rewrite /call_eigvals /bind /emit /=.
by case: (eigvals A) => [eig|] //=; rewrite /ret all_map.
Qed.

(** C4.  [in_manifold_eigen(A, eps)] compares [A.size()[:-2]], the batch
    shape of [A], with [tensorial_size]: when they differ it returns false
    without calling anything that could raise; otherwise it calls
    [torch.linalg.eigvals] once and, on the eigenvalues it returns, answers
    true exactly when every real part is at most [-alpha + eps]. *)
Theorem in_manifold_eigen_spec (self : Hurwitz) m k (A : tensor m k) (eps : R) :
  [/\ but_last2 (tensor_size A) = batch A,
      batch A != tensorial_size self ->
        outcome (in_manifold_eigen self A eps) = Ok false /\
        trace (in_manifold_eigen self A eps) = [::]
    & batch A = tensorial_size self ->
      forall eig, eigvals A = Some eig ->
        exists b : bool,
          [/\ outcome (in_manifold_eigen self A eps) = Ok b,
              trace (in_manifold_eigen self A eps) = [:: Eigvals A]
            & b <-> forall z, z \in eig -> real z <= - alpha self + eps]].
Proof.
split; first exact: batch_of_size.
- by move=> neq; rewrite /outcome /trace in_manifold_eigen_run neq.
- move=> eqb eig eigE.
  exists (all (fun z => real z <= - alpha self + eps) eig).
  rewrite /outcome /trace in_manifold_eigen_run eqb eqxx eigE /=; split=> //.
  by split=> [/allP|allz] //; apply/allP.
Qed.

(** *** Batched operations *)

Lemma zip_mapl (S S' T : Type) (f : S -> S') (s : seq S) (t : seq T) :
  zip [seq f x | x <- s] t = [seq (f xy.1, xy.2) | xy <- zip s t].
Proof. by elim: s t => [|x s IH] [|y t] //=; rewrite IH. Qed.

Lemma zip_mapr (S T T' : Type) (g : T -> T') (s : seq S) (t : seq T) :
  zip s [seq g y | y <- t] = [seq (xy.1, g xy.2) | xy <- zip s t].
Proof. by elim: s t => [|x s IH] [|y t] //=; rewrite IH. Qed.

Lemma mem_zip (S T : eqType) (s : seq S) (t : seq T) (x : S) (y : T) :
  (x, y) \in zip s t -> x \in s /\ y \in t.
Proof.
elim: s t => [|a s IH] [|b t] //=; rewrite !in_cons.
case/orP=> [/eqP[-> ->]|/IH[-> ->]]; first by rewrite !eqxx.
by rewrite !orbT.
Qed.

Lemma tmap2_same m k m' k' m'' k''
    (f : 'M[R]_(m, k) -> 'M[R]_(m', k') -> 'M[R]_(m'', k''))
    (A : tensor m k) (B : tensor m' k') :
  batch A = batch B -> size (mats A) = size (mats B) ->
  tmap2 f A B = Tensor (batch A) [seq f ab.1 ab.2 | ab <- zip (mats A) (mats B)].
Proof.
case: A B => [bA mA] [bB mB] /= -> sz; rewrite /tmap2 /=.
case: bB => [|//]; case: mB sz => [|b [|b' mB]] //.
- by case: mA.
- by case: mA => [|a [|a' mA]].
- by case: mA => [|a [|a' mA]].
Qed.

Lemma batch_tmap2 m k m' k' m'' k''
    (f : 'M[R]_(m, k) -> 'M[R]_(m', k') -> 'M[R]_(m'', k''))
    (A : tensor m k) (B : tensor m' k') :
  batch B = batch A -> batch (tmap2 f A B) = batch A.
Proof.
case: A B => [bA mA] [bB mB] /= ->; rewrite /tmap2 /=.
by case: bA => [|//]; case: mB => [|b [|b' mB]] //; case: mA => [|a [|a' mA]].
Qed.

Lemma mem_tmap2 m k m' k' m'' k''
    (f : 'M[R]_(m, k) -> 'M[R]_(m', k') -> 'M[R]_(m'', k''))
    (A : tensor m k) (B : tensor m' k') (c : 'M[R]_(m'', k'')) :
  c \in mats (tmap2 f A B) ->
  exists a b, [/\ a \in mats A, b \in mats B & c = f a b].
Proof.
pose goal (mA : seq 'M[R]_(m, k)) (mB : seq 'M[R]_(m', k')) :=
  exists a b, [/\ a \in mA, b \in mB & c = f a b].
have Hzip mA mB : c \in [seq f ab.1 ab.2 | ab <- zip mA mB] -> goal mA mB.
  by case/mapP=> -[a b] /mem_zip[ina inb] /= E; exists a, b.
have HA mA mB b : b \in mB -> c \in [seq f a b | a <- mA] -> goal mA mB.
  by move=> inb /mapP[a ina E]; exists a, b.
have HB mA mB a : a \in mA -> c \in [seq f a b | b <- mB] -> goal mA mB.
  by move=> ina /mapP[b inb E]; exists a, b.
case: A B => [bA mA] [bB mB]; rewrite /tmap2 /= -/(goal mA mB).
case: bB => [|? ?]; case: mB => [|b [|? ?]]; case: bA => [|? ?];
  case: mA => [|a [|? ?]];
  solve [ exact: Hzip | by apply: HA; rewrite mem_head
        | by apply: HB; rewrite mem_head ].
Qed.

Lemma mem_tmap m k m' k' (f : 'M[R]_(m, k) -> 'M[R]_(m', k'))
    (A : tensor m k) (c : 'M[R]_(m', k')) :
  c \in mats (tmap f A) -> exists2 a, a \in mats A & c = f a.
Proof. by case/mapP=> a ina ->; exists a. Qed.

Lemma tsub_broadcast d (a : R) (X : tensor d d) :
  tsub X (tscale a (eye d)) = tmap (fun x => x - a *: 1%:M) X.
Proof. by []. Qed.

(** *** The submersion *)

Lemma submersion_same_shape (self : Hurwitz) (Q P S : tensor (n self) (n self)) :
  batch Q = batch P -> batch S = batch P ->
  size (mats Q) = size (mats P) -> size (mats S) = size (mats P) ->
  submersion self Q P S =
  Tensor (batch P)
    [seq submersion_mx (alpha self) t.2.1 t.1 t.2.2
       | t <- zip (mats P) (zip (mats Q) (mats S))].
Proof.
move=> bQ bS sQ sS; rewrite /submersion /In tsub_broadcast /matmul /tadd.
rewrite (@tmap2_same _ _ _ _ _ _ _ (tscale _ Q) S) /= ?size_map ?bQ ?bS ?sQ ?sS //.
rewrite tmap2_same /= ?size_map ?size_zip ?size_map ?sQ ?sS ?minnn //.
rewrite /tmap /= -map_comp; congr Tensor.
rewrite zip_mapl -map_comp zip_mapr -map_comp.
by apply: eq_map => -[p [q s]].
Qed.

Lemma forward_product (self : Hurwitz) (Mq Mp Ms : Manifold (n self))
    (X1 X2 X3 : tensor (n self) (n self)) :
  product self = [:: Mq; Mp; Ms] ->
  forward self X1 X2 X3 =
  Ok (submersion self (m_forward Mq X1) (m_forward Mp X2) (m_forward Ms X3)).
Proof. by rewrite /forward => ->. Qed.

(** C2.  [submersion(Q, P, S)] is [P @ (-0.5 * Q + S) - alpha * In], where
    [In] is broadcast over the batch: on three tensors of one shape its
    matrices are [P_i (-0.5 Q_i + S_i) - alpha I], batch element by batch
    element; [forward(X1, X2, X3)] is [submersion] applied to the three
    tensors the product of sub-manifolds returns for [[X1, X2, X3]]. *)
Theorem submersion_forward_spec (self : Hurwitz)
    (Q P S X1 X2 X3 : tensor (n self) (n self)) :
  [/\ submersion self Q P S =
        tsub (matmul P (tadd (tscale (- half) Q) S))
             (tscale (alpha self) (eye (n self))),
      batch Q = batch P -> batch S = batch P ->
      size (mats Q) = size (mats P) -> size (mats S) = size (mats P) ->
        submersion self Q P S =
        Tensor (batch P)
          [seq t.1 *m ((- half) *: t.2.1 + t.2.2) - alpha self *: 1%:M
             | t <- zip (mats P) (zip (mats Q) (mats S))]
    & product_forward (product self) [:: X1; X2; X3] = [:: Q; P; S] ->
        forward self X1 X2 X3 = Ok (submersion self Q P S)].
Proof.
split=> //; first exact: submersion_same_shape.
by rewrite /forward => ->.
Qed.

(** *** Stability of what the submersion produces *)

Lemma submersion_mx_stable d (a : R) (Q P S : 'M[R]_d) (z : complex) :
  psd_form Q -> is_psd P -> skew_symmetric S ->
  eigen (submersion_mx a Q P S) z -> real z <= - a.
Proof.
move=> psdQ psdP skS /eigen_shift/(eigen_stable psdQ psdP skS) /=.
by rewrite -lerBrDr sub0r.
Qed.

Lemma mem_submersion (self : Hurwitz) (Q P S : tensor (n self) (n self))
    (c : 'M[R]_(n self)) :
  c \in mats (submersion self Q P S) ->
  exists q p s, [/\ q \in mats Q, p \in mats P, s \in mats S
                  & c = submersion_mx (alpha self) q p s].
Proof.
rewrite /submersion /In tsub_broadcast => /mem_tmap[c1 + ->].
case/mem_tmap2=> p [k [inp + ->]] => /mem_tmap2[q' [s [+ ins ->]]].
by case/mem_tmap=> q inq ->; exists q, p, s.
Qed.

Lemma batch_submersion (self : Hurwitz) (Q P S : tensor (n self) (n self)) :
  batch Q = batch P -> batch S = batch P ->
  batch (submersion self Q P S) = batch P.
Proof.
move=> bQ bS; rewrite /submersion /In tsub_broadcast /= /matmul.
by rewrite batch_tmap2 // /tadd batch_tmap2 /= ?bQ ?bS.
Qed.

Lemma in_manifold_eigen_stable (self : Hurwitz) (A : tensor (n self) (n self))
    (eps : R) :
  eigvals_sound (n self) -> eigvals_total (n self) -> 0 <= eps ->
  batch A = tensorial_size self ->
  (forall c z, c \in mats A -> eigen c z -> real z <= - alpha self) ->
  outcome (in_manifold_eigen self A eps) = Ok true.
Proof.
move=> sound total eps0 bA stable.
rewrite /outcome in_manifold_eigen_run bA eqxx.
have := total A; case eigE: (eigvals A) => [eig|] //= _; congr Ok.
apply/allP=> z /(sound _ _ eigE)[c inc /(stable _ _ inc) le_a].
by apply: le_trans le_a _; rewrite lerDl.
Qed.

Lemma batch_fill d (init_ : rng -> 'M[R]_d * rng) (X : tensor d d) (g : rng) :
  batch (fill init_ X g).1 = batch X.
Proof. by rewrite /fill; case: (draw _ _ _). Qed.

Lemma tmap2_self m k m' k' m'' k''
    (f : 'M[R]_(m, k) -> 'M[R]_(m', k') -> 'M[R]_(m'', k''))
    (h : 'M[R]_(m, k) -> 'M[R]_(m', k')) (A : tensor m k) :
  tmap2 f A (tmap h A) = tmap (fun a => f a (h a)) A.
Proof.
case: A => [bA mA]; rewrite /tmap2 /tmap /=.
have zipE (s : seq 'M[R]_(m, k)) :
    [seq f ab.1 ab.2 | ab <- zip s [seq h a | a <- s]] = [seq f a (h a) | a <- s].
  by elim: s => [|a s /= ->].
by case: bA => [|? ?]; case: mA => [|a [|a' mA]] //=; rewrite zipE.
Qed.

Lemma sampleE (self : Hurwitz) (init_ : rng -> 'M[R]_(n self) * rng) (g : rng) :
  exists X_q X_p X_s : tensor (n self) (n self),
    [/\ batch X_q = tensorial_size self, batch X_p = tensorial_size self,
        batch X_s = tensorial_size self
      & (sample self init_ g).1 =
        submersion self (tmap (fun x => x *m x^T) X_q)
                        (tmap (fun x => x *m x^T) X_p)
                        (tmap (fun x => x - x^T) X_s)].
Proof.
rewrite /sample.
case Ep: (fill _ _ g) => [X_p g1]; case Eq: (fill _ _ g1) => [X_q g2].
case Es: (fill _ _ g2) => [X_s g3].
have bp : batch X_p = tensorial_size self.
  by rewrite -[X_p]/(X_p, g1).1 -Ep batch_fill.
have bq : batch X_q = tensorial_size self.
  by rewrite -[X_q]/(X_q, g2).1 -Eq batch_fill.
have bs : batch X_s = tensorial_size self.
  by rewrite -[X_s]/(X_s, g3).1 -Es batch_fill.
exists X_q, X_p, X_s; split=> //.
by rewrite /matmul /tsub /transpose !tmap2_self.
Qed.


(** *** The inverse submersion, step by step *)

Lemma submersion_inv_checked (self : Hurwitz) (A : tensor (n self) (n self))
    (epsilon : R) (solver : string) (log : seq event) :
  submersion_inv self A true epsilon solver log =
  match in_manifold_eigen self A epsilon log with
  | (Ok true, log') => submersion_inv self A false epsilon solver log'
  | (Ok false, log') => (Error InManifoldError, log')
  | (Error e, log') => (Error e, log')
  end.
Proof.
rewrite /submersion_inv /bind /=.
by case: (in_manifold_eigen self A epsilon log) => [[[|]|e] log'].
Qed.

Lemma submersion_inv_unchecked (self : Hurwitz) (A : tensor (n self) (n self))
    (epsilon : R) (solver : string) (log : seq event) :
  submersion_inv self A false epsilon solver log =
  match numpy A with
  | Error e => (Error e, log)
  | Ok A_ =>
      let log' := rcons log (Solve solver (sdp self A_ epsilon)) in
      match cvx_solve solver (sdp self A_ epsilon) with
      | None => (Error (ExternalError "cvxpy"), log')
      | Some (status, P_value) =>
          if infeasible_or_unbounded status
          then (Error (ValueError sdp_msg), log')
          else
            match P_value with
            | None => (Error (ExternalError "numpy"), log')
            | Some P =>
                if P \in unitmx then
                  let Q := - lyapunov self A_ P in
                  (Ok (of_matrix Q, of_matrix (invmx P),
                       of_matrix (P *m A_ + half *: Q + alpha self *: P)),
                   log')
                else (Error (ExternalError "torch.inverse"), log')
            end
      end
  end.
Proof.
rewrite /submersion_inv /bind /lift /ret /=.
case: (numpy A) => [A_|e] //=; rewrite /call_solve /bind /emit /=.
case: (cvx_solve _ _) => [[status [P|]]|] //=; rewrite /raise /ret;
  case: (infeasible_or_unbounded status) => //=.
by rewrite /inverse; case: (P \in unitmx).
Qed.

(** *** The algebra of the recovered factors *)

Lemma lyapunov_sym (self : Hurwitz) (A P : 'M[R]_(n self)) :
  symmetric P -> symmetric (lyapunov self A P).
Proof.
rewrite /symmetric /lyapunov => symP.
rewrite !linearD /= linearZ /= !trmx_mul trmxK symP.
by rewrite [P *m A + _]addrC.
Qed.

Lemma recovered_S (self : Hurwitz) (A P : 'M[R]_(n self)) :
  symmetric P ->
  P *m A + half *: (- lyapunov self A P) + alpha self *: P
  = half *: (P *m A - (P *m A)^T).
Proof.
rewrite /symmetric /lyapunov trmx_mul => ->.
move: (P *m A) (A^T *m P) => X Y.
apply/matrixP=> i j; rewrite !mxE /half.
by field.
Qed.

Lemma recovered_skew (self : Hurwitz) (A P : 'M[R]_(n self)) :
  symmetric P ->
  skew_symmetric (P *m A + half *: (- lyapunov self A P) + alpha self *: P).
Proof.
move=> symP; rewrite recovered_S // /skew_symmetric linearZ /=.
by rewrite anti_skew scalerN.
Qed.

Lemma recovered_identity (self : Hurwitz) (A P : 'M[R]_(n self)) :
  P \in unitmx ->
  submersion_mx (alpha self) (- lyapunov self A P) (invmx P)
    (P *m A + half *: (- lyapunov self A P) + alpha self *: P) = A.
Proof.
move=> unitP; rewrite /submersion_mx.
have -> : (- half) *: (- lyapunov self A P)
          + (P *m A + half *: (- lyapunov self A P) + alpha self *: P)
          = P *m A + alpha self *: P.
  move: (lyapunov self A P) (P *m A) => L X.
  by apply/matrixP=> i j; rewrite !mxE; ring.
by rewrite mulmxDr mulKmx // -scalemxAr mulVmx // addrK.
Qed.

Lemma quad_form1 d (x : 'rV[R]_d) : quad_form 1%:M x x = dotp x x.
Proof. by rewrite quad_formE mulmx1. Qed.

Lemma dotp_gt0 d (x : 'rV[R]_d) : x != 0 -> 0 < dotp x x.
Proof.
move=> xn0; rewrite lt_neqAle dotp_ge0 andbT eq_sym.
by apply: contra xn0 => /eqP/dotp_eq0 ->.
Qed.

Lemma feasible_sdp (self : Hurwitz) (A P : 'M[R]_(n self)) (epsilon : R) :
  feasible (sdp self A epsilon) P <->
  [/\ is_psd P,
      forall x, quad_form (lyapunov self A P) x x <= - epsilon * dotp x x
    & forall x, epsilon * dotp x x <= quad_form P x x].
Proof.
rewrite /feasible /= /psd_form.
have E1 x : quad_form ((- epsilon) *: 1%:M - lyapunov self A P) x x
            = - epsilon * dotp x x - quad_form (lyapunov self A P) x x.
  by rewrite quad_formDm quad_formZm quad_formNm quad_form1.
have E2 x : quad_form (P - epsilon *: 1%:M - 0) x x
            = quad_form P x x - epsilon * dotp x x.
  by rewrite subr0 quad_formDm quad_formNm quad_formZm quad_form1.
split=> [[psdP [H1 [H2 _]]]|[psdP H1 H2]].
  split; first exact: psdP.
    by move=> x; rewrite -subr_ge0 -E1.
  by move=> x; rewrite -subr_ge0 -E2.
split=> //; split; first by move=> x; rewrite E1 subr_ge0.
by split=> // x; rewrite E2 subr_ge0.
Qed.

Lemma recovered_Q_psd (self : Hurwitz) (A P : 'M[R]_(n self)) (epsilon : R) :
  0 <= epsilon -> feasible (sdp self A epsilon) P ->
  is_psd (- lyapunov self A P).
Proof.
move=> eps0 /feasible_sdp[[symP _] H1 _]; split.
  by rewrite /symmetric linearN /= lyapunov_sym.
move=> x; rewrite quad_formNm oppr_ge0; apply: le_trans (H1 x) _.
by rewrite mulNr oppr_le0 mulr_ge0 // dotp_ge0.
Qed.

(** *** Traces of the inverse path *)

Lemma right_inverse_run (self : Hurwitz) (A : tensor (n self) (n self))
    (check_in_manifold : bool) (log : seq event) :
  right_inverse self A check_in_manifold log =
  match submersion_inv self A check_in_manifold float_1e_8 "MOSEK" log with
  | (Error e, log') => (Error e, log')
  | (Ok (Q, P, S_), log') =>
      match product_right_inverse (product self) [:: Q; P; S_] with
      | Error e => (Error e, log')
      | Ok [:: X1; X2; X3] => (Ok (X1, X2, X3), log')
      | Ok _ => (Error (ValueError "unpack"), log')
      end
  end.
Proof.
rewrite /right_inverse /bind.
case: (submersion_inv _ _ _ _ _ _) => [[[[Q P] S_]|e] log'] //=.
rewrite /lift; case: (product_right_inverse _ _) => [Xs|e] //.
by case: Xs => [|X1 [|X2 [|X3 [|X4 Xs]]]].
Qed.

Lemma trace_right_inverse (self : Hurwitz) (A : tensor (n self) (n self))
    (check_in_manifold : bool) :
  trace (right_inverse self A check_in_manifold) =
  trace (submersion_inv self A check_in_manifold float_1e_8 "MOSEK").
Proof.
rewrite /trace right_inverse_run.
case: (submersion_inv _ _ _ _ _ _) => [[[[Q P] S_]|e] log'] //=.
case: (product_right_inverse _ _) => [Xs|e] //.
by case: Xs => [|X1 [|X2 [|X3 [|X4 Xs]]]].
Qed.

Lemma trace_submersion_inv_unchecked (self : Hurwitz)
    (A : tensor (n self) (n self)) (epsilon : R) (solver : string)
    (log : seq event) :
  (submersion_inv self A false epsilon solver log).2 =
  if numpy A is Ok A_ then rcons log (Solve solver (sdp self A_ epsilon))
  else log.
Proof.
rewrite submersion_inv_unchecked; case: (numpy A) => [A_|e] //=.
case: (cvx_solve _ _) => [[status [P|]]|] //=;
  case: (infeasible_or_unbounded status) => //=.
by case: (P \in unitmx).
Qed.

Lemma trace_in_manifold_eigen (self : Hurwitz) m k (A : tensor m k) (eps : R)
    (log : seq event) :
  (in_manifold_eigen self A eps log).2 =
  if batch A != tensorial_size self then log else rcons log (Eigvals A).
Proof.
by rewrite in_manifold_eigen_run; case: ifP => // _; case: (eigvals A).
Qed.

(** The solver is called at most once, with the solver name and the
    margin [submersion_inv] was given. *)
Lemma solves_submersion_inv (self : Hurwitz) (A : tensor (n self) (n self))
    (check_in_manifold : bool) (epsilon : R) (solver : string) :
  solves (trace (submersion_inv self A check_in_manifold epsilon solver)) = [::]
  \/ exists2 A_, numpy A = Ok A_
     & solves (trace (submersion_inv self A check_in_manifold epsilon solver))
       = [:: Solve solver (sdp self A_ epsilon)].
Proof.
rewrite /trace; case: check_in_manifold; last first.
  rewrite trace_submersion_inv_unchecked.
  by case E: (numpy A) => [A_|e]; [right; exists A_|left].
rewrite submersion_inv_checked.
have := trace_in_manifold_eigen self A epsilon [::].
case: (in_manifold_eigen _ _ _ _) => [[[|]|e] log'] /= ->; last first.
- by left; case: ifP.
- by left; case: ifP.
rewrite trace_submersion_inv_unchecked.
case E: (numpy A) => [A_|e]; [right; exists A_ => //|left]; by case: ifP.
Qed.

Lemma submersion_inv_ok (self : Hurwitz) (A : tensor (n self) (n self))
    (check_in_manifold : bool) (epsilon : R) (solver : string)
    (QPS : tensor (n self) (n self) * tensor (n self) (n self)
           * tensor (n self) (n self)) :
  outcome (submersion_inv self A check_in_manifold epsilon solver) = Ok QPS ->
  exists A_ P status,
    [/\ numpy A = Ok A_,
        cvx_solve solver (sdp self A_ epsilon) = Some (status, Some P),
        ~~ infeasible_or_unbounded status, P \in unitmx
      & QPS = (of_matrix (- lyapunov self A_ P), of_matrix (invmx P),
               of_matrix (P *m A_ + half *: (- lyapunov self A_ P)
                          + alpha self *: P))].
Proof.
have unchecked log :
    (submersion_inv self A false epsilon solver log).1 = Ok QPS ->
    exists A_ P status,
    [/\ numpy A = Ok A_,
        cvx_solve solver (sdp self A_ epsilon) = Some (status, Some P),
        ~~ infeasible_or_unbounded status, P \in unitmx
      & QPS = (of_matrix (- lyapunov self A_ P), of_matrix (invmx P),
               of_matrix (P *m A_ + half *: (- lyapunov self A_ P)
                          + alpha self *: P))].
  rewrite submersion_inv_unchecked; case: (numpy A) => [A_|e] //=.
  case E: (cvx_solve _ _) => [[status [P|]]|] //=;
    case bad: (infeasible_or_unbounded status) => //=.
  case unitP: (P \in unitmx) => //= -[<-].
  by exists A_, P, status; rewrite bad.
rewrite /outcome; case: check_in_manifold; last exact: unchecked.
rewrite submersion_inv_checked.
case: (in_manifold_eigen _ _ _ _) => [[[|]|e] log'] //=.
exact: unchecked.
Qed.

Lemma numpy_of_matrix d (A : tensor d d) (A_ : 'M[R]_d) :
  numpy A = Ok A_ -> A = of_matrix A_.
Proof.
by case: A => [[|? ?] [|a [|? ?]]] //=; rewrite /numpy /= => -[->].
Qed.

Lemma submersion_of_matrix (self : Hurwitz) (Q P S : 'M[R]_(n self)) :
  submersion self (of_matrix Q) (of_matrix P) (of_matrix S)
  = of_matrix (submersion_mx (alpha self) Q P S).
Proof. by []. Qed.

(** C8.  The problem [submersion_inv] hands to the solver is a pure
    feasibility problem: the objective is [Minimize(0)], the variable [P]
    is declared PSD and the constraints are
    [AT P + P A + 2 alpha P << -epsilon I] and [P - epsilon I >> 0], which
    [P] satisfies exactly when it is positive semi-definite with the two
    forms bounded by [epsilon]; when the solver reports the status
    [infeasible] or [unbounded], [submersion_inv] raises the [ValueError]
    right after that one call of the solver, with or without the
    membership check before it. *)
Theorem sdp_feasibility_fatal (self : Hurwitz) (A : tensor (n self) (n self))
    (A_ : 'M[R]_(n self)) (epsilon : R) (solver status : string)
    (P_value : option 'M[R]_(n self)) (log : seq event) :
  [/\ sdp self A_ epsilon =
        MkProblem true (Minimize (fun _ => 0))
          [:: Matrix_le
                (fun P => A_^T *m P + P *m A_ + (2%:R * alpha self) *: P)
                (fun _ => (- epsilon) *: 1%:M);
              Matrix_ge (fun P => P - epsilon *: 1%:M) (fun _ => 0)],
      forall P, feasible (sdp self A_ epsilon) P <->
        [/\ is_psd P,
            forall x, quad_form (A_^T *m P + P *m A_ + (2%:R * alpha self) *: P)
                        x x <= - epsilon * dotp x x
          & forall x, epsilon * dotp x x <= quad_form P x x],
      infeasible_or_unbounded status <->
        status = "infeasible"%string \/ status = "unbounded"%string
    & numpy A = Ok A_ ->
      cvx_solve solver (sdp self A_ epsilon) = Some (status, P_value) ->
      infeasible_or_unbounded status ->
        submersion_inv self A false epsilon solver log =
          (Error (ValueError sdp_msg),
           rcons log (Solve solver (sdp self A_ epsilon)))
        /\ forall log0,
             in_manifold_eigen self A epsilon log0 = (Ok true, log) ->
             submersion_inv self A true epsilon solver log0 =
               (Error (ValueError sdp_msg),
                rcons log (Solve solver (sdp self A_ epsilon)))].
Proof.
split=> //; first by move=> P; exact: feasible_sdp.
  rewrite /infeasible_or_unbounded; split.
    by case/orP=> /String.eqb_spec ->; [left|right].
  by case=> ->; rewrite !String.eqb_refl ?orbT.
move=> npE solveE bad.
have E log1 : submersion_inv self A false epsilon solver log1 =
    (Error (ValueError sdp_msg),
     rcons log1 (Solve solver (sdp self A_ epsilon))).
  by rewrite submersion_inv_unchecked npE /= solveE bad.
by split=> // log0 chk; rewrite submersion_inv_checked chk.
Qed.


(** *** Round trip *)

Lemma product_right_inverse3 d (M1 M2 M3 : Manifold d)
    (Y1 Y2 Y3 X1 X2 X3 : tensor d d) :
  product_right_inverse [:: M1; M2; M3] [:: Y1; Y2; Y3] = Ok [:: X1; X2; X3] ->
  [/\ m_right_inverse M1 Y1 = Ok X1, m_right_inverse M2 Y2 = Ok X2
    & m_right_inverse M3 Y3 = Ok X3].
Proof.
rewrite /=; case: (m_right_inverse M1 Y1) => [Z1|e] //.
case: (m_right_inverse M2 Y2) => [Z2|e] //.
by case: (m_right_inverse M3 Y3) => [Z3|e] // [-> -> ->].
Qed.

Lemma right_inverse_ok (self : Hurwitz) (A : tensor (n self) (n self))
    (check_in_manifold : bool) (X1 X2 X3 : tensor (n self) (n self)) :
  outcome (right_inverse self A check_in_manifold) = Ok (X1, X2, X3) ->
  exists Q P S,
    outcome (submersion_inv self A check_in_manifold float_1e_8 "MOSEK")
      = Ok (Q, P, S)
    /\ product_right_inverse (product self) [:: Q; P; S] = Ok [:: X1; X2; X3].
Proof.
rewrite /outcome right_inverse_run.
case: (submersion_inv _ _ _ _ _ _) => [[[[Q P] S]|e] log'] //=.
case E: (product_right_inverse _ _) => [Xs|e] //.
case: Xs E => [|Z1 [|Z2 [|Z3 [|Z4 Xs]]]] //= E [<- <- <-].
by exists Q, P, S.
Qed.


Lemma const1_neq0 d : (0 < d)%N -> (const_mx 1 : 'rV[R]_d) != 0.
Proof.
move=> d0; apply/eqP=> /rowP/(_ (Ordinal d0)); rewrite !mxE => /eqP.
by rewrite oner_eq0.
Qed.

(** On the boundary of the manifold the solve has no feasible point:
    [-alpha I] passes the membership test, and no sound solver lets
    [right_inverse] return on it. *)
Lemma boundary_infeasible (self : Hurwitz) (P : 'M[R]_(n self)) (epsilon : R) :
  (0 < n self)%N -> 0 < epsilon ->
  ~ feasible (sdp self ((- alpha self) *: 1%:M) epsilon) P.
Proof.
move=> n0 eps0 /feasible_sdp[_ H _].
have := H (const_mx 1); rewrite /lyapunov.
have -> : ((- alpha self) *: 1%:M)^T *m P + P *m ((- alpha self) *: 1%:M)
          + (2%:R * alpha self) *: P = 0.
  rewrite linearZ /= trmx1 -scalemxAl mul1mx -scalemxAr mulmx1.
  by apply/matrixP=> i j; rewrite !mxE; ring.
rewrite /quad_form mulmx0 mul0mx mxE mulNr oppr_ge0 => le0.
have gt0 := dotp_gt0 (const1_neq0 n0).
by have := mulr_gt0 eps0 gt0; rewrite ltNge le0.
Qed.

(** *** Tolerances *)

Lemma float_1e_8_gt0 : 0 < float_1e_8.
Proof. by rewrite /float_1e_8 invr_gt0 exprn_gt0 // ltr0n. Qed.

Lemma float_1e_6_gt0 : 0 < float_1e_6.
Proof. by rewrite /float_1e_6 invr_gt0 exprn_gt0 // ltr0n. Qed.

Lemma float_1e_8_lt_1e_6 : float_1e_8 < float_1e_6.
Proof. by rewrite /float_1e_8 /float_1e_6; lra. Qed.

Lemma between_tolerances :
  float_1e_8 < half * float_1e_6 /\ half * float_1e_6 <= float_1e_6.
Proof. by rewrite /float_1e_8 /float_1e_6 /half; split; lra. Qed.

Lemma float_1e_8_le1 : float_1e_8 <= 1.
Proof. by rewrite /float_1e_8; lra. Qed.

Lemma margin_in_gate (a : R) :
  2%:R * a + 2%:R <= - float_1e_8 -> a <= - 1 + float_1e_8.
Proof. by rewrite /float_1e_8 => le8; lra. Qed.

(** *** Eigenvalues of a scalar matrix *)

Lemma scalar_eigen_id (c z1 z2 xj yj : R) :
  c * xj = z1 * xj - z2 * yj -> c * yj = z2 * xj + z1 * yj ->
  ((c - z1) ^+ 2 + z2 ^+ 2) * xj = 0 /\ ((c - z1) ^+ 2 + z2 ^+ 2) * yj = 0.
Proof.
move=> H1 H2.
have U1 : (c - z1) * xj = - z2 * yj by lra.
have U2 : (c - z1) * yj = z2 * xj by lra.
split.
  rewrite mulrDl !expr2 -!mulrA U1 mulrCA U2.
  by rewrite mulNr addNr.
rewrite mulrDl !expr2 -!mulrA U2 mulrCA U1.
by rewrite mulNr mulrN addNr.
Qed.

Lemma eigen_scalar d (c : R) (z : complex) :
  eigen (c *: 1%:M : 'M[R]_d) z -> z = (c, 0).
Proof.
case: z => z1 z2 [x [y [nz]]] /=; rewrite -!scalemxAr !mulmx1 => E1 E2.
have ids j : ((c - z1) ^+ 2 + z2 ^+ 2) * x 0 j = 0
            /\ ((c - z1) ^+ 2 + z2 ^+ 2) * y 0 j = 0.
  apply: scalar_eigen_id.
    by have /rowP/(_ j) := E1; rewrite !mxE.
  by have /rowP/(_ j) := E2; rewrite !mxE.
have [s0|sn0] := eqVneq ((c - z1) ^+ 2 + z2 ^+ 2) 0.
  have u0 : (c - z1) ^+ 2 = 0.
    by apply/eqP; rewrite eq_le sqr_ge0 andbT; have := sqr_ge0 z2; lra.
  have v0 : z2 ^+ 2 = 0 by lra.
  move/eqP: u0; rewrite sqrf_eq0 subr_eq0 => /eqP ->.
  by move/eqP: v0; rewrite sqrf_eq0 => /eqP ->.
have x0 : x = 0.
  apply/rowP=> j; rewrite mxE; have [/eqP] := ids j.
  by rewrite mulf_eq0 (negPf sn0) /= => /eqP.
have y0 : y = 0.
  apply/rowP=> j; rewrite mxE; have [_ /eqP] := ids j.
  by rewrite mulf_eq0 (negPf sn0) /= => /eqP.
by move: nz; rewrite x0 y0 eqxx.
Qed.

Lemma scalar_is_eigen d (c : R) :
  (0 < d)%N -> eigen (c *: 1%:M : 'M[R]_d) (c, 0).
Proof.
move=> d0; exists (const_mx 1), 0; split; first by rewrite const1_neq0.
  by rewrite /= -scalemxAr mulmx1 scaler0 subr0.
by rewrite /= mul0mx scale0r scaler0 addr0.
Qed.

(** *** The gate of the inverse path *)

Lemma right_inverse_checked (self : Hurwitz) (A : tensor (n self) (n self))
    (log : seq event) :
  right_inverse self A true log =
  match in_manifold_eigen self A float_1e_8 log with
  | (Ok true, log') => right_inverse self A false log'
  | (Ok false, log') => (Error InManifoldError, log')
  | (Error e, log') => (Error e, log')
  end.
Proof.
rewrite right_inverse_run submersion_inv_checked.
by case: (in_manifold_eigen _ _ _ _) => [[[|]|e] log'] //; rewrite right_inverse_run.
Qed.

Lemma in_manifold_eigen_mono (self : Hurwitz) m k (A : tensor m k)
    (eps1 eps2 : R) :
  eps1 <= eps2 ->
  outcome (in_manifold_eigen self A eps2) = Ok false ->
  outcome (in_manifold_eigen self A eps1) = Ok false.
Proof.
move=> le12; rewrite /outcome !in_manifold_eigen_run; case: ifP => // _.
case: (eigvals A) => [eig|] //= [/negbT nall]; congr Ok; apply/negbTE.
apply: contra nall; apply: sub_all => z le1.
by apply: le_trans le1 _; rewrite lerD2l.
Qed.

Lemma recovered_Q_pd (self : Hurwitz) (A P : 'M[R]_(n self)) (epsilon : R) :
  0 < epsilon -> feasible (sdp self A epsilon) P ->
  is_pd (- lyapunov self A P).
Proof.
move=> eps0 /feasible_sdp[[symP _] H1 _]; split.
  by rewrite /symmetric linearN /= lyapunov_sym.
move=> x xn0; rewrite quad_formNm oppr_gt0; apply: le_lt_trans (H1 x) _.
by rewrite mulNr oppr_lt0 mulr_gt0 // dotp_gt0.
Qed.

Lemma inverse_pd (self : Hurwitz) (A P : 'M[R]_(n self)) (epsilon : R) :
  0 < epsilon -> feasible (sdp self A epsilon) P -> P \in unitmx ->
  is_pd (invmx P).
Proof.
move=> eps0 /feasible_sdp[[symP _] _ H2] unitP; split.
  by rewrite /symmetric trmx_inv symP.
move=> x xn0; set y := x *m invmx P.
have xE : x = y *m P by rewrite /y mulmxKV.
have yn0 : y != 0 by apply: contra_neq xn0 => y0; rewrite xE y0 mul0mx.
rewrite quad_formE -/y [X in dotp y X]xE dotpC -quad_formE.
by apply: lt_le_trans (H2 y); rewrite mulr_gt0 // dotp_gt0.
Qed.

Lemma numpy_ok d (A : tensor d d) (A_ : 'M[R]_d) :
  numpy A = Ok A_ -> mats A = [:: A_].
Proof. by move/numpy_of_matrix->. Qed.


(** C9, as the code has it.  [submersion_inv] takes the solver name and
    the margin [epsilon] and calls the solver, at most once, with that name
    on the problem built with that margin.  [right_inverse] takes neither:
    the solve it runs is the one of [submersion_inv] with the defaults, the
    solver [MOSEK] and the margin [1e-8]. *)
Theorem solver_selection (self : Hurwitz) (A : tensor (n self) (n self))
    (check_in_manifold : bool) (epsilon : R) (solver : string) :
  [/\ solves (trace (submersion_inv self A check_in_manifold epsilon solver))
        = [::]
      \/ exists2 A_, numpy A = Ok A_
         & solves (trace (submersion_inv self A check_in_manifold epsilon solver))
           = [:: Solve solver (sdp self A_ epsilon)],
      trace (right_inverse self A check_in_manifold)
        = trace (submersion_inv self A check_in_manifold float_1e_8 "MOSEK")
    & solves (trace (right_inverse self A check_in_manifold)) = [::]
      \/ exists2 A_, numpy A = Ok A_
         & solves (trace (right_inverse self A check_in_manifold))
           = [:: Solve "MOSEK" (sdp self A_ float_1e_8)]].
Proof.
split; first exact: solves_submersion_inv.
  exact: trace_right_inverse.
rewrite trace_right_inverse; exact: solves_submersion_inv.
Qed.

(** *** Between the two tolerances *)

Lemma in_manifold_eigen_scalar (self : Hurwitz) (c eps : R) :
  eigvals_sound (n self) -> eigvals_complete (n self) ->
  eigvals_total (n self) -> (0 < n self)%N -> tensorial_size self = [::] ->
  outcome (in_manifold_eigen self (of_matrix (c *: 1%:M : 'M_(n self))) eps)
  = Ok (c <= - alpha self + eps).
Proof.
move=> sound complete total n0 ts0.
rewrite /outcome in_manifold_eigen_run ts0 /=.
have := total (of_matrix (c *: 1%:M)).
case eigE: (eigvals _) => [eig|] //= _; congr Ok.
have inc : (c, 0) \in eig.
  by apply: (complete _ _ eigE (c *: 1%:M)); rewrite ?inE //; apply: scalar_is_eigen.
apply/allP/idP=> [/(_ _ inc)//|le_c z /(sound _ _ eigE)[a]].
by rewrite inE => /eqP -> /eigen_scalar ->.
Qed.

(** C10.  The membership test that [right_inverse] runs before the solve
    uses the tolerance [1e-8], smaller than the default [1e-6] of
    [in_manifold_eigen]: on an instance without batch dimensions there is a
    matrix that the test accepts with its default tolerance and on which
    [right_inverse(A, check_in_manifold=True)] raises [InManifoldError]. *)
Theorem precheck_is_stricter (self : Hurwitz) :
  eigvals_sound (n self) -> eigvals_complete (n self) ->
  eigvals_total (n self) -> (0 < n self)%N -> tensorial_size self = [::] ->
  [/\ float_1e_8 < float_1e_6,
      forall A log,
        right_inverse self A true log =
        match in_manifold_eigen self A float_1e_8 log with
        | (Ok true, log') => right_inverse self A false log'
        | (Ok false, log') => (Error InManifoldError, log')
        | (Error e, log') => (Error e, log')
        end
    & exists A : tensor (n self) (n self),
        outcome (in_manifold_eigen self A float_1e_6) = Ok true
        /\ outcome (right_inverse self A true) = Error InManifoldError].
Proof.
move=> sound complete total n0 ts0; split.
- exact: float_1e_8_lt_1e_6.
- by move=> A log; exact: right_inverse_checked.
have [lo hi] := between_tolerances.
exists (of_matrix ((- alpha self + half * float_1e_6) *: 1%:M)); split.
  by rewrite in_manifold_eigen_scalar // lerD2l hi.
have := in_manifold_eigen_scalar (- alpha self + half * float_1e_6)
          float_1e_8 sound complete total n0 ts0.
rewrite lerD2l leNgt lo /= /outcome right_inverse_checked.
by case: (in_manifold_eigen _ _ _ _) => [[[|]|e] log'] //= [].
Qed.

(** On the boundary: [-alpha I] passes the membership test with any
    tolerance, and [right_inverse] does not return on it when the solver
    only returns feasible values. *)
Lemma boundary_in_manifold (self : Hurwitz) (eps : R) :
  eigvals_sound (n self) -> eigvals_complete (n self) ->
  eigvals_total (n self) -> (0 < n self)%N -> tensorial_size self = [::] ->
  0 <= eps ->
  outcome (in_manifold_eigen self
             (of_matrix ((- alpha self) *: 1%:M : 'M_(n self))) eps)
  = Ok true.
Proof.
by move=> sound complete total n0 ts0 eps0; rewrite in_manifold_eigen_scalar // lerDl eps0.
Qed.

Lemma boundary_no_right_inverse (self : Hurwitz) (check_in_manifold : bool) :
  solver_sound (n self) -> (0 < n self)%N ->
  is_ok (outcome (right_inverse self (of_matrix ((- alpha self) *: 1%:M))
                    check_in_manifold)) = false.
Proof.
move=> sound n0.
case E: (outcome _) => [[[X1 X2] X3]|e] //=.
have [Q [P [S [/submersion_inv_ok[A_ [P_ [status [[<-] solveE ok _ _]]]] _]]]]
  := right_inverse_ok E.
have := sound _ _ _ _ solveE ok.
by move/(boundary_infeasible n0 float_1e_8_gt0).
Qed.

End Model.

Arguments in_manifold_eigen {R} eigvals self {m k} A eps.
Arguments submersion {R} self Q P S.
Arguments forward {R} self X1 X2 X3.
Arguments submersion_inv {R} eigvals cvx_solve self A check_in_manifold
  epsilon solver.
Arguments right_inverse {R} eigvals cvx_solve self A check_in_manifold.
Arguments sample {R rng} self init_ g.
Arguments sdp {R} self A epsilon.
Arguments lyapunov {R} self A P.
Arguments is_eigvals {R} ev.
Arguments is_solve {R} ev.

(** ** An instance to run the model on: 1 x 1 rational matrices *)

Module Scalar.

(** Eigenvalues of batches of 1 x 1 matrices: the entries. *)
Definition eigvals1 (m k : nat) : tensor rat m k -> option (seq (complex rat)) :=
  match m, k return tensor rat m k -> option (seq (complex rat)) with
  | 1%N, 1%N => fun A : tensor rat 1 1 =>
      Some (map (fun a : 'M[rat]_1 => (a ord0 ord0, 0)) (mats A))
  | _, _ => fun _ => None
  end.

(** A constraint on a 1 x 1 matrix is a sign condition on its entry. *)
Definition check1 (P : 'M[rat]_1) (c : constraint rat 1) : bool :=
  match c with
  | Matrix_le lhs rhs => 0 <= (rhs P - lhs P) ord0 ord0
  | Matrix_ge lhs rhs => 0 <= (lhs P - rhs P) ord0 ord0
  end.

(** A solver that tries the value [P = 1] on 1 x 1 problems. *)
Definition cvx_solve1 (d : nat) (solver : string)
  : Problem rat d -> option (string * option 'M[rat]_d) :=
  match d return Problem rat d -> option (string * option 'M[rat]_d) with
  | 1%N => fun prob : Problem rat 1 =>
      if all (check1 1%:M) (constraints prob)
      then Some ("optimal"%string, Some 1%:M)
      else Some ("infeasible"%string, None)
  | _ => fun _ => None
  end.

(** A PSD manifold on 1 x 1 matrices: [forward] clamps the entry at zero,
    [right_inverse] accepts the positive entries. *)
Definition psd1 : Manifold rat 1 :=
  MkManifold
    (tmap (fun x : 'M[rat]_1 => if 0 <= x ord0 ord0 then x else 0))
    (fun X => if all (fun x : 'M[rat]_1 => 0 < x ord0 ord0) (mats X)
              then Ok X else Error InManifoldError).

(** A Skew manifold: [forward] anti-symmetrizes, [right_inverse] halves
    the skew-symmetric matrices. *)
Definition skew1 (d : nat) : Manifold rat d :=
  MkManifold
    (tmap (fun x : 'M[rat]_d => x - x^T))
    (fun X => if all (fun x : 'M[rat]_d => x^T == - x) (mats X)
              then Ok (tscale (half rat) X) else Error InManifoldError).

(** The PSD constructor: Gram matrices, for the two named retractions. *)
Definition gram (d : nat) : Manifold rat d :=
  MkManifold (tmap (fun x : 'M[rat]_d => x *m x^T))
             (fun _ => Error InManifoldError).

Definition PSD1 (d : nat) (size_ : seq nat) (triv : string)
  : result (Manifold rat d) :=
  if (String.eqb triv "expm" || String.eqb triv "cayley")%bool
  then Ok (gram d) else Error (ValueError "triv").

(** The instance [Hurwitz((1, 1), alpha=1)]. *)
Definition hz1 : Hurwitz rat :=
  @MkHurwitz rat 1 [:: psd1; psd1; skew1 1] [::] 1.

(** An initializer that counts. *)
Definition init1 (g : nat) : 'M[rat]_1 * nat := (g%:R%:M, g.+1).

Definition scalar (a : rat) : tensor rat 1 1 := of_matrix a%:M.

(** *** The instance meets what the theorems ask of the oracles *)

Lemma scalar11 (a : 'M[rat]_1) : a = (a ord0 ord0) *: 1%:M.
Proof. by rewrite scalemx1 -mx11_scalar. Qed.

Lemma eigvals1_sound : eigvals_sound eigvals1 1.
Proof.
move=> A eig [<-] z /mapP[a ina ->]; exists a => //.
by rewrite [X in eigen X _]scalar11; apply: scalar_is_eigen.
Qed.

Lemma eigvals1_complete : eigvals_complete eigvals1 1.
Proof.
move=> A eig [<-] a z ina; rewrite [X in eigen X _]scalar11.
by move/eigen_scalar->; apply/mapP; exists a.
Qed.

Lemma eigvals1_total : eigvals_total eigvals1 1.
Proof. by []. Qed.

Lemma psd_form11 (a : 'M[rat]_1) : 0 <= a ord0 ord0 -> psd_form a.
Proof.
move=> a0 x; rewrite [X in quad_form X _ _]scalar11 quad_formZm quad_form1.
by rewrite mulr_ge0 // dotp_ge0.
Qed.

Lemma symmetric11 (a : 'M[rat]_1) : symmetric a.
Proof. by rewrite /symmetric [a]mx11_scalar tr_scalar_mx. Qed.

Lemma entry_quad_form (a : 'M[rat]_1) :
  a ord0 ord0 = quad_form a (const_mx 1) (const_mx 1).
Proof.
rewrite [X in quad_form X _ _]scalar11 quad_formZm quad_form1 dotpE big_ord1.
by rewrite !mxE mulr1 mulr1.
Qed.

Lemma is_pd11 (a : 'M[rat]_1) : is_pd a -> 0 < a ord0 ord0.
Proof.
by case=> _ pd; rewrite entry_quad_form; apply: pd; apply: const1_neq0.
Qed.

Lemma check1_holds (P : 'M[rat]_1) (c : constraint rat 1) :
  check1 P c -> holds c P.
Proof. by case: c => lhs rhs /= /psd_form11. Qed.

Lemma cvx_solve1_sound : solver_sound cvx_solve1 1.
Proof.
move=> solver prob status P /=.
case chk: (all _ _) => // -[_ <-] _; split.
  by move=> _; split; [exact: symmetric11|apply: psd_form11; rewrite mxE].
elim: (constraints prob) chk => [|c cs IH] //= /andP[/check1_holds hc /IH hcs].
by split.
Qed.

Lemma psd1_valued : psd_valued psd1.
Proof.
move=> X a /mapP[x _ ->]; split; first exact: symmetric11.
by apply: psd_form11; case: ifP => // _; rewrite mxE.
Qed.

Lemma psd1_shape : shape_preserving psd1.
Proof. by []. Qed.

Lemma psd1_fixes (X : tensor rat 1 1) :
  all (fun x : 'M[rat]_1 => 0 < x ord0 ord0) (mats X) -> m_forward psd1 X = X.
Proof.
case: X => [b ms] /= /allP pos; rewrite /tmap /=; congr Tensor.
rewrite -[RHS]map_id; apply/eq_in_map => x /pos /ltW.
by move=> ->.
Qed.

Lemma psd1_right_inverse_sound : right_inverse_sound psd1.
Proof.
by move=> X Y /=; case: ifP => // pos [<-]; apply: psd1_fixes.
Qed.

Lemma psd1_right_inverse_on : right_inverse_on psd1 (@is_pd rat 1).
Proof.
move=> X pd; have pos : all (fun x : 'M[rat]_1 => 0 < x ord0 ord0) (mats X).
  by apply/allP=> x /pd /is_pd11.
by exists X; rewrite /= ?pos //; apply: psd1_fixes.
Qed.

Lemma skew1_valued d : skew_valued (skew1 d).
Proof. by move=> X a /mapP[x _ ->]; apply: anti_skew. Qed.

Lemma skew1_shape d : shape_preserving (skew1 d).
Proof. by []. Qed.

Lemma skew1_fixes d (X : tensor rat d d) :
  all (fun x : 'M[rat]_d => x^T == - x) (mats X) ->
  m_forward (skew1 d) (tscale (half rat) X) = X.
Proof.
case: X => [b ms] /= /allP sk; rewrite /tscale /tmap /= -map_comp.
congr Tensor; rewrite -[RHS]map_id; apply/eq_in_map => x /sk /eqP /= xT.
rewrite linearZ /= xT scalerN opprK -scalerDl /half.
by have -> : 2%:R^-1 + 2%:R^-1 = 1 :> rat; rewrite ?scale1r.
Qed.

Lemma skew1_right_inverse_sound d : right_inverse_sound (skew1 d).
Proof.
by move=> X Y /=; case: ifP => // sk [<-]; apply: skew1_fixes.
Qed.

Lemma skew1_right_inverse_on d :
  right_inverse_on (skew1 d) (@skew_symmetric rat d).
Proof.
move=> X skX; have sk : all (fun x : 'M[rat]_d => x^T == - x) (mats X).
  by apply/allP=> x /skX /eqP.
by exists (tscale (half rat) X); rewrite /= ?sk //; apply: skew1_fixes.
Qed.

(** *** Running the instance *)

Lemma scalar_entry (a : rat) : (a%:M : 'M[rat]_1) ord0 ord0 = a.
Proof. by rewrite mxE eqxx mulr1n. Qed.

Lemma in_manifold_eigen_scalar1 (a eps : rat) (log : seq (event rat)) :
  in_manifold_eigen eigvals1 hz1 (scalar a) eps log =
  (Ok (a <= - 1 + eps), rcons log (Eigvals (scalar a))).
Proof. by rewrite in_manifold_eigen_run /= scalar_entry andbT. Qed.

Lemma lyapunov_scalar1 (a p : rat) :
  lyapunov hz1 a%:M p%:M = ((2%:R * a + 2%:R) * p)%:M.
Proof.
apply/matrixP=> i j; rewrite /lyapunov !ord1 !mxE !big_ord1 !mxE /=.
by rewrite !mulr1n; ring.
Qed.

Lemma cvx_solve_scalar1 (a eps : rat) (solver : string) :
  cvx_solve1 solver (sdp hz1 a%:M eps) =
  if (2%:R * a + 2%:R <= - eps) && (eps <= 1)
  then Some ("optimal"%string, Some 1%:M)
  else Some ("infeasible"%string, None).
Proof.
rewrite /cvx_solve1 /= lyapunov_scalar1 !mxE /= !mulr1n mulr1 subr0 andbT.
by rewrite !mulr1 !subr_ge0.
Qed.

(** The three tensors the inverse submersion recovers from [[a]], with
    the value [P = 1] of the solver. *)
Definition Q1 (a : rat) : 'M[rat]_1 := - lyapunov hz1 a%:M 1%:M.
Definition S1 (a : rat) : 'M[rat]_1 :=
  1%:M *m a%:M + half rat *: Q1 a + alpha hz1 *: 1%:M.

Lemma numpy_scalar (a : rat) : numpy (scalar a) = Ok a%:M.
Proof. by []. Qed.

Lemma submersion_inv_scalar1 (a eps : rat) (solver : string)
    (log : seq (event rat)) :
  submersion_inv eigvals1 cvx_solve1 hz1 (scalar a) false eps solver log =
  if (2%:R * a + 2%:R <= - eps) && (eps <= 1)
  then (Ok (of_matrix (Q1 a), of_matrix (invmx 1%:M), of_matrix (S1 a)),
        rcons log (Solve solver (sdp hz1 a%:M eps)))
  else (Error (ValueError sdp_msg),
        rcons log (Solve solver (sdp hz1 a%:M eps))).
Proof.
rewrite submersion_inv_unchecked numpy_scalar; cbv beta iota zeta.
rewrite cvx_solve_scalar1.
by case: ifP => //= _; rewrite unitmx1.
Qed.

Lemma submersion_inv_scalar1_ok (a eps : rat) (solver : string)
    (log : seq (event rat)) :
  2%:R * a + 2%:R <= - eps -> eps <= 1 ->
  submersion_inv eigvals1 cvx_solve1 hz1 (scalar a) false eps solver log =
  (Ok (of_matrix (Q1 a), of_matrix (invmx 1%:M), of_matrix (S1 a)),
   rcons log (Solve solver (sdp hz1 a%:M eps))).
Proof. by move=> le8 le1; rewrite submersion_inv_scalar1 le8 le1. Qed.

Lemma submersion_inv_scalar1_infeasible (a eps : rat) (solver : string)
    (log : seq (event rat)) :
  - eps < 2%:R * a + 2%:R ->
  submersion_inv eigvals1 cvx_solve1 hz1 (scalar a) false eps solver log =
  (Error (ValueError sdp_msg), rcons log (Solve solver (sdp hz1 a%:M eps))).
Proof. by move=> lt8; rewrite submersion_inv_scalar1 leNgt lt8. Qed.

Lemma Q1_entry (a : rat) : Q1 a ord0 ord0 = - (2%:R * a + 2%:R).
Proof. by rewrite /Q1 lyapunov_scalar1 mxE scalar_entry mulr1. Qed.

Lemma S1_skew (a : rat) : (S1 a)^T == - S1 a.
Proof. by apply/eqP/(@recovered_skew _ hz1); apply: symmetric11. Qed.

Lemma product_right_inverse_scalar1 (a : rat) :
  2%:R * a + 2%:R < 0 ->
  product_right_inverse (product hz1)
    [:: of_matrix (Q1 a); of_matrix (invmx 1%:M); of_matrix (S1 a)]
  = Ok [:: of_matrix (Q1 a); of_matrix (invmx 1%:M);
           tscale (half rat) (of_matrix (S1 a))].
Proof.
move=> lt0; rewrite /= Q1_entry oppr_gt0 lt0 /= invmx1 scalar_entry ltr01 /=.
by rewrite S1_skew.
Qed.

Lemma right_inverse_scalar1 (a : rat) (check_in_manifold : bool) :
  2%:R * a + 2%:R <= - float_1e_8 rat ->
  right_inverse eigvals1 cvx_solve1 hz1 (scalar a) check_in_manifold [::] =
  (Ok (of_matrix (Q1 a), of_matrix (invmx 1%:M),
       tscale (half rat) (of_matrix (S1 a))),
   if check_in_manifold
   then [:: Eigvals (scalar a);
            Solve "MOSEK" (sdp hz1 a%:M (float_1e_8 rat))]
   else [:: Solve "MOSEK" (sdp hz1 a%:M (float_1e_8 rat))]).
Proof.
move=> le8; have lt0 : 2%:R * a + 2%:R < 0.
  by apply: le_lt_trans le8 _; rewrite oppr_lt0 float_1e_8_gt0.
have le1 := float_1e_8_le1 rat.
have chk := margin_in_gate le8.
have run log :
    right_inverse eigvals1 cvx_solve1 hz1 (scalar a) false log =
    (Ok (of_matrix (Q1 a), of_matrix (invmx 1%:M),
         tscale (half rat) (of_matrix (S1 a))),
     rcons log (Solve "MOSEK" (sdp hz1 a%:M (float_1e_8 rat)))).
  rewrite right_inverse_run (submersion_inv_scalar1_ok _ _ le8 le1).
  by rewrite -/(product hz1) product_right_inverse_scalar1.
case: check_in_manifold; last exact: run.
by rewrite right_inverse_checked in_manifold_eigen_scalar1 chk run.
Qed.

(** Numbers the runs below compare, in any ordered field. *)
Lemma margin_at_minus2 (R : realFieldType) :
  2%:R * (- 2%:R) + 2%:R <= - float_1e_8 R.
Proof. by rewrite /float_1e_8; lra. Qed.

Lemma margin_at_minus1 (R : realFieldType) :
  - float_1e_8 R < 2%:R * (- 1) + 2%:R.
Proof. by rewrite /float_1e_8; lra. Qed.

Lemma zero_outside (R : realFieldType) :
  (0 <= - 1 + float_1e_8 R) = false /\ (0 <= - 1 + float_1e_6 R) = false.
Proof.
by split; apply/negbTE; rewrite -ltNge /float_1e_8 /float_1e_6; lra.
Qed.

Lemma half_margin (R : realFieldType) :
  2%:R * (- 2%:R) + 2%:R <= - half R /\ half R <= 1.
Proof. by rewrite /half; split; lra. Qed.

Lemma float_1e_4_gt0 (R : realFieldType) : 0 < float_1e_4 R.
Proof. by rewrite /float_1e_4 invr_gt0 exprn_gt0 // ltr0n. Qed.

Lemma cvx_solve_scalar1_ok (a eps : rat) (solver : string) :
  2%:R * a + 2%:R <= - eps -> eps <= 1 ->
  cvx_solve1 solver (sdp hz1 a%:M eps) = Some ("optimal"%string, Some 1%:M).
Proof. by move=> le8 le1; rewrite cvx_solve_scalar1 le8 le1. Qed.

Lemma cvx_solve_scalar1_infeasible (a eps : rat) (solver : string) :
  - eps < 2%:R * a + 2%:R ->
  cvx_solve1 solver (sdp hz1 a%:M eps) = Some ("infeasible"%string, None).
Proof. by move=> lt8; rewrite cvx_solve_scalar1 leNgt lt8. Qed.

Lemma feasible_scalar1 (a eps : rat) :
  2%:R * a + 2%:R <= - eps -> eps <= 1 -> feasible (sdp hz1 a%:M eps) 1%:M.
Proof.
move=> le8 le1.
exact: (cvx_solve1_sound (cvx_solve_scalar1_ok "MOSEK" le8 le1) isT).
Qed.

Lemma right_inverse_error (self : Hurwitz rat) (A : tensor rat (n self) (n self))
    (check_in_manifold : bool) (e : exn) (log log' : seq (event rat)) :
  submersion_inv eigvals1 cvx_solve1 self A check_in_manifold
    (float_1e_8 rat) "MOSEK" log = (Error e, log') ->
  right_inverse eigvals1 cvx_solve1 self A check_in_manifold log
  = (Error e, log').
Proof. by move=> E; rewrite right_inverse_run E. Qed.

(** *** The theorems at the instance *)


(** C10 at the same instance. *)
Lemma precheck_is_stricter_witness :
  [/\ float_1e_8 rat < float_1e_6 rat,
      forall A log,
        right_inverse eigvals1 cvx_solve1 hz1 A true log =
        match in_manifold_eigen eigvals1 hz1 A (float_1e_8 rat) log with
        | (Ok true, log') => right_inverse eigvals1 cvx_solve1 hz1 A false log'
        | (Ok false, log') => (Error InManifoldError, log')
        | (Error e, log') => (Error e, log')
        end
    & exists A : tensor rat 1 1,
        outcome (in_manifold_eigen eigvals1 hz1 A (float_1e_6 rat)) = Ok true
        /\ outcome (right_inverse eigvals1 cvx_solve1 hz1 A true)
           = Error InManifoldError].
Proof.
apply: (@precheck_is_stricter rat eigvals1 cvx_solve1 hz1).
- exact: eigvals1_sound.
- exact: eigvals1_complete.
- exact: eigvals1_total.
- reflexivity.
- reflexivity.
Defined.

(** C7 on the sizes and margins of test_hurwitz.py. *)
Lemma init_contract_witness :
  [/\ __init__ PSD1 skew1 [:: 5%N] (1 : rat) "expm"%string
        = Error (VectorError cls_name [:: 5%N]),
      __init__ PSD1 skew1 [:: 3%N; 6%N] (2%:R : rat) "expm"%string
        = Error (NonSquareError cls_name [:: 3%N; 6%N]),
      __init__ PSD1 skew1 [:: 4%N; 4%N] (- 2%:R : rat) "expm"%string
        = Error (ValueError alpha_msg),
      exists2 e, __init__ PSD1 skew1 [:: 3%N; 3%N] (0 : rat) "expm"%string
                   = Error e & isinstance_ValueError e
    & __init__ PSD1 skew1 [:: 4%N; 4%N] (float_1e_4 rat) "expm"%string
        = Ok (MkHurwitz [:: gram 4; gram 4; skew1 4] [::] (float_1e_4 rat))].
Proof.
split.
- have [H _ _ _ _] := init_contract PSD1 skew1 [:: 5%N] (1 : rat) "expm"%string.
  exact: H.
- have [_ H _ _ _] :=
    init_contract PSD1 skew1 [:: 3%N; 6%N] (2%:R : rat) "expm"%string.
  exact: (H [::] 3%N 6%N).
- have [_ _ _ H _] :=
    init_contract PSD1 skew1 [:: 4%N; 4%N] (- 2%:R : rat) "expm"%string.
  apply: (H [::] 4%N); [reflexivity | reflexivity |].
  by rewrite oppr_le0 ler0n.
- have [_ _ H _ _] :=
    init_contract PSD1 skew1 [:: 3%N; 3%N] (0 : rat) "expm"%string.
  by apply: H => // d e; rewrite /PSD1.
- have [_ _ _ _ H] :=
    init_contract PSD1 skew1 [:: 4%N; 4%N] (float_1e_4 rat) "expm"%string.
  apply: (H [::] 4%N (gram 4)); [reflexivity | reflexivity |].
  exact: float_1e_4_gt0.
Defined.

(** C4 on a tensor of batch shape [(2,)] and on [[-2]]. *)
Lemma in_manifold_eigen_spec_witness :
  (outcome (in_manifold_eigen eigvals1 hz1
              (Tensor [:: 2%N] [:: 0; 0] : tensor rat 1 1) (float_1e_6 rat))
     = Ok false
   /\ trace (in_manifold_eigen eigvals1 hz1
               (Tensor [:: 2%N] [:: 0; 0] : tensor rat 1 1) (float_1e_6 rat))
      = [::])
  /\ exists b : bool,
       [/\ outcome (in_manifold_eigen eigvals1 hz1 (scalar (- 2%:R))
                      (float_1e_6 rat)) = Ok b,
           trace (in_manifold_eigen eigvals1 hz1 (scalar (- 2%:R))
                    (float_1e_6 rat)) = [:: Eigvals (scalar (- 2%:R))]
         & b <-> forall z, z \in [:: (((- 2%:R)%:M : 'M[rat]_1) ord0 ord0, 0)] ->
                   real z <= - alpha hz1 + float_1e_6 rat].
Proof.
split.
  have [_ H _] := in_manifold_eigen_spec eigvals1 hz1
    (Tensor [:: 2%N] [:: 0; 0] : tensor rat 1 1) (float_1e_6 rat).
  exact: H.
have [_ _ H] := in_manifold_eigen_spec eigvals1 hz1 (scalar (- 2%:R))
  (float_1e_6 rat).
exact: (H (erefl _) _ (erefl _)).
Defined.

(** C2 on the tensors the sub-manifolds make of [[3]]. *)
Lemma submersion_forward_spec_witness :
  let Q := m_forward psd1 (scalar 3%:R) in
  let P := m_forward psd1 (scalar 3%:R) in
  let S := m_forward (skew1 1) (scalar 3%:R) in
  submersion hz1 Q P S =
    Tensor (batch P)
      [seq t.1 *m ((- half rat) *: t.2.1 + t.2.2) - alpha hz1 *: 1%:M
         | t <- zip (mats P) (zip (mats Q) (mats S))]
  /\ forward hz1 (scalar 3%:R) (scalar 3%:R) (scalar 3%:R)
     = Ok (submersion hz1 Q P S).
Proof.
move=> Q P S.
have [_ H2 H3] := submersion_forward_spec (self:=hz1) Q P S
  (scalar 3%:R) (scalar 3%:R) (scalar 3%:R).
split; first exact: (H2 (erefl _) (erefl _) (erefl _) (erefl _)).
exact: (H3 (erefl _)).
Defined.

(** The run of [submersion_inv] on [[a]] with the membership check. *)
Lemma submersion_inv_scalar1_checked (a eps : rat) (solver : string) :
  a <= - 1 + eps -> 2%:R * a + 2%:R <= - eps -> eps <= 1 ->
  submersion_inv eigvals1 cvx_solve1 hz1 (scalar a) true eps solver [::] =
  (Ok (of_matrix (Q1 a), of_matrix (invmx 1%:M), of_matrix (S1 a)),
   [:: Eigvals (scalar a); Solve solver (sdp hz1 a%:M eps)]).
Proof.
move=> chk le8 le1.
rewrite submersion_inv_checked in_manifold_eigen_scalar1 chk.
exact: submersion_inv_scalar1_ok.
Qed.



(** C9 at [[-2]]: whatever solver and margin the caller of [right_inverse]
    has in mind, the solve runs with [MOSEK] and [1e-8]; only
    [submersion_inv] can be asked for [SCS] and another margin. *)
Lemma right_inverse_solver_is_fixed :
  [/\ solves (trace (right_inverse eigvals1 cvx_solve1 hz1 (scalar (- 2%:R))
                       true))
        = [:: Solve "MOSEK" (sdp hz1 (- 2%:R)%:M (float_1e_8 rat))],
      solves (trace (right_inverse eigvals1 cvx_solve1 hz1 (scalar (- 2%:R))
                       false))
        = [:: Solve "MOSEK" (sdp hz1 (- 2%:R)%:M (float_1e_8 rat))],
      solves (trace (submersion_inv eigvals1 cvx_solve1 hz1 (scalar (- 2%:R))
                       false (half rat) "SCS"))
        = [:: Solve "SCS" (sdp hz1 (- 2%:R)%:M (half rat))]
    & String.eqb "MOSEK" "SCS" = false].
Proof.
split=> //.
- by rewrite /trace (right_inverse_scalar1 true (margin_at_minus2 rat)).
- by rewrite /trace (right_inverse_scalar1 false (margin_at_minus2 rat)).
- have [le2 le1] := half_margin rat.
  by rewrite /trace (submersion_inv_scalar1_ok _ _ le2 le1).
Qed.



(** C8 at [[-1]], where the solver reports the problem infeasible. *)
Lemma sdp_feasibility_fatal_witness :
  submersion_inv eigvals1 cvx_solve1 hz1 (scalar (- 1)) false (float_1e_8 rat)
    "MOSEK" [::]
  = (Error (ValueError sdp_msg),
     [:: Solve "MOSEK" (sdp hz1 (- 1)%:M (float_1e_8 rat))])
  /\ submersion_inv eigvals1 cvx_solve1 hz1 (scalar (- 1)) true
       (float_1e_8 rat) "MOSEK" [::]
     = (Error (ValueError sdp_msg),
        [:: Eigvals (scalar (- 1));
            Solve "MOSEK" (sdp hz1 (- 1)%:M (float_1e_8 rat))]).
Proof.
have solveE := cvx_solve_scalar1_infeasible "MOSEK" (margin_at_minus1 rat).
have [_ _ _ H] := @sdp_feasibility_fatal rat eigvals1 cvx_solve1 hz1
  (scalar (- 1)) (- 1)%:M (float_1e_8 rat) "MOSEK"%string "infeasible"%string
  None [::].
have [_ _ _ H'] := @sdp_feasibility_fatal rat eigvals1 cvx_solve1 hz1
  (scalar (- 1)) (- 1)%:M (float_1e_8 rat) "MOSEK"%string "infeasible"%string
  None [:: Eigvals (scalar (- 1))].
have [r1 _] := H (erefl _) solveE (erefl _).
have [_ r2] := H' (erefl _) solveE (erefl _).
split; first exact: r1.
apply: r2; rewrite in_manifold_eigen_scalar1 lerDl.
by rewrite (ltW (float_1e_8_gt0 rat)).
Defined.

End Scalar.

(** ** Further properties of the code *)

Section Further.

Variable R : realFieldType.
Variable eigvals : forall m k, tensor R m k -> option (seq (complex R)).
Variable cvx_solve :
  forall d, string -> Problem R d -> option (string * option 'M[R]_d).
Variable triv_t : Type.
Variable PSD : forall d, seq nat -> triv_t -> result (Manifold R d).
Variable Skew : forall d, Manifold R d.
Variable rng : Type.

(** *** Sizes and construction *)

Lemma parse_size_char (size_ : seq nat) :
  (forall d ts, parse_size size_ = Ok (d, ts) <-> size_ = ts ++ [:: d; d])
  /\ (forall e, parse_size size_ = Error e ->
        ((size size_ < 2)%N /\ e = VectorError cls_name size_)
        \/ (exists ts d k, [/\ size_ = ts ++ [:: d; k], d != k
                             & e = NonSquareError cls_name size_])).
Proof.
case: (ltnP (size size_) 2) => [lt2|le2].
  split=> [d ts|e]; last by rewrite parse_size_vector // => -[<-]; left.
  rewrite parse_size_vector //; split=> // E.
  by move: lt2; rewrite E size_cat /= addnC.
have [x [y E]] := size2_split le2.
case: (eqVneq x y) E => [<-|ne] E.
  split=> [d ts|e]; last by rewrite E parse_size_cat eqxx.
  split=> [|->]; last by rewrite parse_size_cat eqxx.
  by rewrite {1}E parse_size_cat eqxx => -[<- <-].
split=> [d ts|e].
  split=> [|dd]; first by rewrite E parse_size_cat ne.
  have := last2_cat (but_last2 size_) x y; rewrite -E dd last2_cat.
  by case=> dx dy; move: ne; rewrite -dx -dy eqxx.
rewrite {1}E parse_size_cat ne => -[<-]; right.
by exists (but_last2 size_), x, y; split=> //; rewrite -E.
Qed.

(** X1.  [parse_size] accepts exactly the sizes that end in two equal
    dimensions, and what it returns puts the size back together:
    [tensorial_size + (n, n) == size].  Its only exceptions are
    [VectorError], for fewer than two dimensions, and [NonSquareError], for
    two different last dimensions. *)
Theorem parse_size_inv (size_ : seq nat) :
  (forall d ts, parse_size size_ = Ok (d, ts) <-> size_ = ts ++ [:: d; d])
  /\ (forall e, parse_size size_ = Error e ->
        ((size size_ < 2)%N /\ e = VectorError cls_name size_)
        \/ (exists ts d k, [/\ size_ = ts ++ [:: d; k], d != k
                             & e = NonSquareError cls_name size_])).
Proof. exact: parse_size_char. Qed.

Lemma init_ok (size_ : seq nat) (a : R) (triv : triv_t)
    (self : Hurwitz R) :
  __init__ PSD Skew size_ a triv = Ok self ->
  [/\ 0 < alpha self, alpha self = a,
      size_ = tensorial_size self ++ [:: n self; n self]
    & exists2 Mq, PSD (n self) size_ triv = Ok Mq
                & product self = [:: Mq; Mq; Skew (n self)]].
Proof.
case: (ltnP (size size_) 2) => [lt2|le2].
  by rewrite /__init__ parse_size_vector.
have [x [y E]] := size2_split le2; rewrite {1 2}E.
case: (eqVneq x y) E => [<-|/negPf ne] E; last first.
  by rewrite /__init__ parse_size_cat ne.
rewrite init_square -E; case psdE: (PSD x size_ triv) => [Mq|e] //.
case: (lerP a 0) => // a0 [<-] /=; split=> //.
by exists Mq.
Qed.


(** X3.  The checks of [Hurwitz.__init__] come in the order size,
    sub-manifolds, alpha: an exception of [parse_size] is raised whatever
    [alpha] and the retraction are, an exception of the PSD constructor is
    raised whatever [alpha] is, and the [ValueError] about alpha is raised
    only for [alpha <= 0]; no other exception leaves the constructor. *)
Theorem init_errors (size_ : seq nat) (a : R) (triv : triv_t) :
  [/\ forall e, parse_size size_ = Error e ->
        __init__ PSD Skew size_ a triv = Error e,
      forall d ts e, parse_size size_ = Ok (d, ts) ->
        PSD d size_ triv = Error e ->
        __init__ PSD Skew size_ a triv = Error e
    & forall e, __init__ PSD Skew size_ a triv = Error e ->
        [\/ parse_size size_ = Error e,
            exists d, PSD d size_ triv = Error e
          | a <= 0 /\ e = ValueError alpha_msg]].
Proof.
split=> [e pE|d ts e /(parse_size_char size_).1 E psdE|e].
- by rewrite /__init__ pE.
- by rewrite E init_square -E psdE.
case: (ltnP (size size_) 2) => [lt2|le2].
  by rewrite /__init__ parse_size_vector // => -[<-]; apply: Or31.
have [x [y E]] := size2_split le2.
case: (eqVneq x y) E => [<-|/negPf ne] E; last first.
  have pE : parse_size size_ = Error (NonSquareError cls_name size_).
    by rewrite {1}E parse_size_cat ne -E.
  by rewrite /__init__ pE => -[<-]; apply: Or31.
rewrite {1}E init_square -E; case psdE: (PSD x size_ triv) => [Mq|e'].
  by case: (lerP a 0) => // a0 [<-]; apply: Or33.
by case=> <-; apply: Or32; exists x.
Qed.

(** *** Sampling and shapes *)

Lemma size_draw d (init_ : rng -> 'M[R]_d * rng) (count : nat) (g : rng) :
  size (draw init_ count g).1 = count.
Proof.
elim: count g => [|k IH] g //=.
by case: (init_ g) => a g1; have := IH g1; case: (draw _ _ _) => r g2 /= ->.
Qed.

Lemma size_fill d (init_ : rng -> 'M[R]_d * rng) (X : tensor R d d) (g : rng) :
  size (mats (fill init_ X g).1) = size (mats X).
Proof.
by rewrite /fill; have := size_draw init_ (size (mats X)) g; case: (draw _ _ _).
Qed.

(** X4.  [sample] returns what [submersion] computes on the Gram matrices
    [X_q X_qT], [X_p X_pT] and the differences [X_s - X_sT] of three
    tensors it draws in the order [X_p], [X_q], [X_s], each from the random
    state the one before left; the tensor has the batch shape
    [tensorial_size] and one matrix for each index of that shape. *)
Theorem sample_submersion (self : Hurwitz R)
    (init_ : rng -> 'M[R]_(n self) * rng) (g : rng) :
  let Xp := fill init_ (empty R (tensorial_size self) (n self) (n self)) g in
  let Xq := fill init_ (empty_like Xp.1) Xp.2 in
  let Xs := fill init_ (empty_like Xp.1) Xq.2 in
  [/\ sample self init_ g
        = (submersion self (tmap (fun x => x *m x^T) Xq.1)
                           (tmap (fun x => x *m x^T) Xp.1)
                           (tmap (fun x => x - x^T) Xs.1), Xs.2),
      batch (sample self init_ g).1 = tensorial_size self
    & well_shaped (sample self init_ g).1].
Proof.
move=> Xp Xq Xs.
have bp : batch Xp.1 = tensorial_size self by rewrite batch_fill.
have bq : batch Xq.1 = tensorial_size self by rewrite batch_fill.
have bs : batch Xs.1 = tensorial_size self by rewrite batch_fill.
have sp : size (mats Xp.1) = \prod_(d <- tensorial_size self) d.
  by rewrite size_fill /= size_nseq.
have sq : size (mats Xq.1) = size (mats Xp.1).
  by rewrite size_fill /= size_nseq.
have ss : size (mats Xs.1) = size (mats Xp.1).
  by rewrite size_fill /= size_nseq.
have E : sample self init_ g
         = (submersion self (tmap (fun x => x *m x^T) Xq.1)
                            (tmap (fun x => x *m x^T) Xp.1)
                            (tmap (fun x => x - x^T) Xs.1), Xs.2).
  rewrite /sample /Xs /Xq /Xp.
  case: (fill _ _ g) => [X_p g1] /=; case: (fill _ _ g1) => [X_q g2] /=.
  case: (fill _ _ g2) => [X_s g3] /=.
  by rewrite /matmul /tsub /transpose !tmap2_self.
split=> //; rewrite E /=.
  by rewrite batch_submersion /= ?bq ?bs.
rewrite submersion_same_shape /= ?size_map ?bq ?bs ?sq ?ss //.
by rewrite /well_shaped /= size_map !size_zip !size_map sq ss !minnn bp sp.
Qed.

(** A forward map that returns as many matrices as it is given. *)
Definition count_preserving d (Mf : Manifold R d) : Prop :=
  forall X, size (mats (m_forward Mf X)) = size (mats X).

(** X5.  On an instance that [__init__] constructed, [forward] has no
    error path: the product returns three tensors and [forward] returns
    the submersion of the two PSD tensors and the Skew tensor.  When the
    sub-manifolds keep the shape of their argument, the result of three
    inputs of shape [tensorial_size + (n, n)] has that shape again. *)
Theorem forward_total (size_ : seq nat) (a : R) (triv : triv_t)
    (self : Hurwitz R) (X1 X2 X3 : tensor R (n self) (n self)) :
  __init__ PSD Skew size_ a triv = Ok self ->
  exists Mq : Manifold R (n self),
    [/\ PSD (n self) size_ triv = Ok Mq,
        forward self X1 X2 X3
          = Ok (submersion self (m_forward Mq X1) (m_forward Mq X2)
                                (m_forward (Skew (n self)) X3))
      & shape_preserving Mq -> count_preserving Mq ->
        shape_preserving (Skew (n self)) -> count_preserving (Skew (n self)) ->
        [/\ batch X1 = tensorial_size self, batch X2 = tensorial_size self
          & batch X3 = tensorial_size self] ->
        [/\ well_shaped X1, well_shaped X2 & well_shaped X3] ->
        forall A, forward self X1 X2 X3 = Ok A ->
          batch A = tensorial_size self /\ well_shaped A].
Proof.
case/init_ok=> _ _ _ [Mq psdE prodE]; exists Mq; split=> //.
  exact: forward_product.
move=> shq cq shs cs [b1 b2 b3] [/eqP w1 /eqP w2 /eqP w3] A.
rewrite (forward_product _ _ _ prodE) => -[<-].
have sz : size (mats (m_forward Mq X1)) = size (mats (m_forward Mq X2))
          /\ size (mats (m_forward (Skew (n self)) X3))
             = size (mats (m_forward Mq X2)).
  by rewrite !cq cs w1 w2 w3 b1 b2 b3.
split; first by rewrite batch_submersion !shq ?shs ?b1 ?b2 ?b3.
rewrite submersion_same_shape ?shq ?shs ?b1 ?b2 ?b3 ?sz.1 ?sz.2 //.
rewrite /well_shaped /= size_map !size_zip sz.1 sz.2 !minnn ?shq ?b2.
by rewrite cq w2 b2.
Qed.

(** *** Strict stability *)

Lemma pd_psd d (A : 'M[R]_d) : is_pd A -> is_psd A.
Proof.
case=> symA pdA; split=> // x; have [->|/pdA/ltW//] := eqVneq x 0.
by rewrite /quad_form mul0mx mul0mx mxE.
Qed.

Lemma pd_mul_neq0 d (A : 'M[R]_d) (x : 'rV[R]_d) :
  is_pd A -> x != 0 -> x *m A != 0.
Proof.
case=> _ pdA /pdA; rewrite quad_formE => gt0.
by apply/eqP=> xA0; move: gt0; rewrite xA0 dotp0l ltxx.
Qed.

(** The forms of [K] on the images of an eigenvector of [P K] under a
    symmetric [P] add up to the real part of the eigenvalue times the forms
    of [P] on the eigenvector. *)
Lemma eigen_energy d (P K : 'M[R]_d) (a b : R) (x y : 'rV[R]_d) :
  symmetric P ->
  x *m (P *m K) = a *: x - b *: y -> y *m (P *m K) = b *: x + a *: y ->
  quad_form K (x *m P) (x *m P) + quad_form K (y *m P) (y *m P)
  = a * (quad_form P x x + quad_form P y y).
Proof.
move=> symP; rewrite !mulmxA => E1 E2.
have -> : quad_form K (x *m P) (x *m P)
          = a * quad_form P x x - b * quad_form P y x.
  rewrite quad_formE E1 dotpDl dotpNl !dotpZl (dotpC x) (dotpC y).
  by rewrite -!quad_formE (quad_form_sym x y symP).
have -> : quad_form K (y *m P) (y *m P)
          = b * quad_form P y x + a * quad_form P y y.
  rewrite quad_formE E2 dotpDl !dotpZl (dotpC x) (dotpC y).
  by rewrite -!quad_formE.
by ring.
Qed.

Lemma eigen_strict d (Q P S : 'M[R]_d) (z : complex R) :
  is_pd Q -> is_pd P -> skew_symmetric S ->
  eigen (P *m ((- half R) *: Q + S)) z -> z.1 < 0.
Proof.
move=> pdQ pdP skS [x [y [nz E1 E2]]]; case: z E1 E2 => a b /= E1 E2.
have energy := eigen_energy pdP.1 E1 E2.
have qK v : quad_form ((- half R) *: Q + S) v v = - 2%:R^-1 * quad_form Q v v.
  by rewrite quad_formDm quad_formZm (quad_form_skew v skS) addr0.
move: energy; rewrite !qK.
have [_ psdP] := pd_psd pdP; have [_ psdQ] := pd_psd pdQ.
have := psdP x; have := psdP y.
have := psdQ (x *m P); have := psdQ (y *m P).
have pos : 0 < quad_form P x x \/ 0 < quad_form P y y.
  by case/orP: nz => /pdP.2; [left|right].
have posQ : 0 < quad_form Q (x *m P) (x *m P)
            \/ 0 < quad_form Q (y *m P) (y *m P).
  by case/orP: nz => /(pd_mul_neq0 pdP) /pdQ.2; [left|right].
move: pos posQ.
move: (quad_form P x x) (quad_form P y y) (quad_form Q _ _) (quad_form Q _ _).
move=> sx sy qp qq pos posQ qq0 qp0 sy0 sx0 E.
have spos : 0 < sx + sy by case: pos => ?; lra.
have qpos : 0 < qp + qq by case: posQ => ?; lra.
nra.
Qed.

(** X6.  When the PSD factors are positive definite, as with sub-manifolds
    of positive definite matrices, every matrix of [submersion(Q, P, S)]
    has all its eigenvalues of real part strictly below [-alpha]. *)
Theorem submersion_strictly_stable (self : Hurwitz R)
    (Q P S : tensor R (n self) (n self)) :
  (forall q, q \in mats Q -> is_pd q) ->
  (forall p, p \in mats P -> is_pd p) ->
  (forall s, s \in mats S -> skew_symmetric s) ->
  forall c z, c \in mats (submersion self Q P S) -> eigen c z ->
    real z < - alpha self.
Proof.
move=> pdQ pdP skS c z /mem_submersion[q [p [s [/pdQ pq /pdP pp /skS ss ->]]]].
move/eigen_shift/(eigen_strict pq pp ss) => /=.
by rewrite -ltrBrDr sub0r.
Qed.

(** *** What a feasible point of the solve certifies *)

Lemma quad_form_lyapunov (self : Hurwitz R) (A P : 'M[R]_(n self))
    (v : 'rV[R]_(n self)) :
  symmetric P ->
  quad_form (lyapunov self A P) v v
  = 2%:R * quad_form P (v *m A^T) v + 2%:R * alpha self * quad_form P v v.
Proof.
move=> symP; rewrite /lyapunov !quad_formDm quad_formZm.
have -> : quad_form (A^T *m P) v v = quad_form P (v *m A^T) v.
  by rewrite !quad_formE mulmxA.
have -> : quad_form (P *m A) v v = quad_form P (v *m A^T) v.
  by rewrite (quad_form_sym _ v symP) !quad_formE mulmxA dotp_mulmx.
by ring.
Qed.

Lemma feasible_strict (self : Hurwitz R) (A P : 'M[R]_(n self)) (epsilon : R)
    (z : complex R) :
  0 < epsilon -> feasible (sdp self A epsilon) P ->
  eigen A^T z -> z.1 < - alpha self.
Proof.
move=> eps0 /feasible_sdp[[symP psdP] H1 H2] [x [y [nz E1 E2]]].
case: z E1 E2 => a b /= E1 E2.
have := H1 x; have := H1 y; have := H2 x; have := H2 y.
rewrite !quad_form_lyapunov // E1 E2.
rewrite !quad_formDl !quad_formZl -scaleNr quad_formZl.
rewrite (quad_form_sym y x symP).
have : 0 < dotp x x + dotp y y.
  case/orP: nz => /dotp_gt0 gt0.
    by apply: ltr_wpDr => //; apply: dotp_ge0.
  by apply: ltr_wpDl => //; apply: dotp_ge0.
move: (quad_form P x x) (quad_form P y y) (quad_form P x y) (dotp x x)
  (dotp y y) (alpha self) => sx sy c nx ny al npos Hy Hx Ly Lx.
have spos : 0 < sx + sy by nra.
nra.
Qed.

Lemma feasible_unit (self : Hurwitz R) (A P : 'M[R]_(n self)) (epsilon : R) :
  0 < epsilon -> feasible (sdp self A epsilon) P -> P \in unitmx.
Proof.
move=> eps0 /feasible_sdp[_ _ H2].
rewrite -row_free_unit -kermx_eq0; apply/eqP/row_matrixP=> i.
rewrite row0; apply/eqP; apply/negPn/negP=> /dotp_gt0 gt0.
have := H2 (row i (kermx P)).
rewrite quad_formE -row_mul mulmx_ker row0 dotp0l leNgt.
by rewrite mulr_gt0.
Qed.

(** X7.  On one matrix [A], a tensor without batch dimensions: when
    [submersion_inv(A)] returns, with a solver that only returns feasible
    values and a margin [epsilon > 0], all the eigenvalues of [A], for the
    eigenvectors [A v = lambda v], have a real part strictly below
    [-alpha]: the solve certifies stability, also without the membership
    check.  The same holds for [right_inverse], whose margin is [1e-8]. *)
Theorem solve_certifies_stability (self : Hurwitz R)
    (A_ : 'M[R]_(n self)) (check_in_manifold : bool) :
  solver_sound cvx_solve (n self) ->
  (forall epsilon solver,
     0 < epsilon ->
     is_ok (outcome (submersion_inv eigvals cvx_solve self (of_matrix A_)
                       check_in_manifold epsilon solver)) ->
     forall z, eigen A_^T z -> real z < - alpha self)
  /\ (is_ok (outcome (right_inverse eigvals cvx_solve self (of_matrix A_)
                        check_in_manifold)) ->
      forall z, eigen A_^T z -> real z < - alpha self).
Proof.
move=> sound.
have inv epsilon solver : 0 < epsilon ->
    is_ok (outcome (submersion_inv eigvals cvx_solve self (of_matrix A_)
                      check_in_manifold epsilon solver)) ->
    forall z, eigen A_^T z -> real z < - alpha self.
  move=> eps0; case E: (outcome _) => [QPS|] // _.
  have [A1 [P [status [npE solveE ok _ _]]]] := submersion_inv_ok E.
  have {npE} A1E : A_ = A1 by case: npE.
  move=> z; rewrite A1E; apply: feasible_strict eps0 _.
  exact: sound solveE ok.
split=> //.
case E: (outcome _) => [[[X1 X2] X3]|] // _.
have [Q [P [S [ok _]]]] := right_inverse_ok E.
by apply: (inv (float_1e_8 R) "MOSEK"%string (float_1e_8_gt0 R)); rewrite ok.
Qed.


(** *** From the submersion back to its factors *)

Lemma lyapunov_submersion (self : Hurwitz R) (Q P S : 'M[R]_(n self)) :
  symmetric Q -> skew_symmetric S -> symmetric P -> P \in unitmx ->
  let A := submersion_mx (alpha self) Q P S in
  lyapunov self A (invmx P) = - Q
  /\ invmx P *m A + half R *: (- lyapunov self A (invmx P))
     + alpha self *: invmx P = S.
Proof.
move=> symQ skS symP unitP A.
have E2 : invmx P *m A = (- half R) *: Q + S - alpha self *: invmx P.
  by rewrite /A /submersion_mx mulmxBr mulKmx // -scalemxAr mulmx1.
have E1 : A^T *m invmx P = (- half R) *: Q - S - alpha self *: invmx P.
  rewrite /A /submersion_mx linearB /= trmx_mul linearZ /= trmx1.
  rewrite linearD /= linearZ /= symQ skS symP.
  by rewrite mulmxBl mulmxK // -scalemxAl mul1mx.
have L : lyapunov self A (invmx P) = - Q.
  rewrite /lyapunov E1 E2; move: (invmx P) => Pi.
  by apply/matrixP=> i j; rewrite !mxE /half; field.
split=> //; rewrite L E2; move: (invmx P) => Pi.
by apply/matrixP=> i j; rewrite !mxE /half; field.
Qed.


Lemma lyapunov_scale (self : Hurwitz R) (A P : 'M[R]_(n self)) (t : R) :
  lyapunov self A (t *: P) = t *: lyapunov self A P.
Proof.
rewrite /lyapunov -scalemxAr -scalemxAl scalerA [_ * t]mulrC -scalerA.
by rewrite -!scalerDr.
Qed.

Lemma feasible_on_submersion (self : Hurwitz R) (Q P S : 'M[R]_(n self))
    (epsilon c : R) :
  0 <= epsilon -> 0 < c ->
  symmetric Q -> skew_symmetric S -> symmetric P -> P \in unitmx ->
  (forall x, c * dotp x x <= quad_form Q x x) ->
  (forall x, c * dotp x x <= quad_form (invmx P) x x) ->
  feasible (sdp self (submersion_mx (alpha self) Q P S) epsilon)
           ((epsilon / c) *: invmx P).
Proof.
move=> eps0 c0 symQ skS symP unitP boundQ boundP.
have [L _] := lyapunov_submersion (self:=self) symQ skS symP unitP.
have t0 : 0 <= epsilon / c by rewrite divr_ge0 // ltW.
have tc : epsilon / c * c = epsilon by rewrite divfK // gt_eqF.
have bound M x : c * dotp x x <= quad_form M x x ->
    epsilon * dotp x x <= epsilon / c * quad_form M x x.
  by move=> le; rewrite -{1}tc -mulrA ler_wpM2l.
apply/feasible_sdp; split.
- split=> [|x]; first by rewrite /symmetric linearZ /= trmx_inv symP.
  rewrite quad_formZm mulr_ge0 //.
  by apply: le_trans (boundP x); rewrite mulr_ge0 ?dotp_ge0 // ltW.
- move=> x; rewrite lyapunov_scale L quad_formZm quad_formNm mulrN mulNr lerN2.
  exact: bound.
- by move=> x; rewrite quad_formZm; apply: bound.
Qed.

(** X10.  The solve is feasible on what [submersion] produces from definite
    factors, whatever the margin [epsilon >= 0]: for
    [A = P (-0.5 Q + S) - alpha I] with [Q] and [P] symmetric, [S]
    skew-symmetric, [P] invertible and the forms of [Q] and [P^-1] at least
    [c > 0] times the squared norm, the multiple [(epsilon / c) P^-1]
    satisfies the constraints of the problem built for [A]. *)
Theorem sdp_feasible_on_submersion (self : Hurwitz R) (Q P S : 'M[R]_(n self))
    (epsilon c : R) :
  0 <= epsilon -> 0 < c ->
  symmetric Q -> skew_symmetric S -> symmetric P -> P \in unitmx ->
  (forall x, c * dotp x x <= quad_form Q x x) ->
  (forall x, c * dotp x x <= quad_form (invmx P) x x) ->
  feasible (sdp self (submersion_mx (alpha self) Q P S) epsilon)
           ((epsilon / c) *: invmx P).
Proof. exact: feasible_on_submersion. Qed.

(** *** The membership test *)

(** X11.  With [torch.linalg.eigvals] returning exactly the eigenvalues,
    [in_manifold_eigen] answers true exactly for the tensors of batch shape
    [tensorial_size] all of whose matrices have all their eigenvalues of
    real part at most [-alpha + eps].  The size [m] of the matrices is not
    compared with [n]: the test is the same for every [m]. *)
Theorem in_manifold_eigen_meaning (self : Hurwitz R) (m : nat)
    (A : tensor R m m) (eps : R) :
  eigvals_sound eigvals m -> eigvals_complete eigvals m ->
  eigvals_total eigvals m ->
  exists2 b : bool,
    outcome (in_manifold_eigen eigvals self A eps) = Ok b
    & b <-> batch A = tensorial_size self
            /\ forall a z, a \in mats A -> eigen a z ->
                 real z <= - alpha self + eps.
Proof.
move=> sound complete total; rewrite /outcome in_manifold_eigen_run.
case: (eqVneq (batch A) (tensorial_size self)) => [bE|ne] /=; last first.
  by exists false => //; split=> // -[bE]; rewrite bE eqxx in ne.
have := total A; case eigE: (eigvals A) => [eig|] // _.
exists (all (fun z => real z <= - alpha self + eps) eig) => //.
split=> [/allP le_eig|[_ le_eig]].
  by split=> // a z ina ev; apply: le_eig; apply: complete eigE _ _ ina ev.
by apply/allP=> z /(sound _ _ eigE)[a ina ev]; apply: le_eig ina ev.
Qed.

(** X12.  [in_manifold_eigen] is monotone in its tolerance and in the
    margin: a tensor accepted with [eps1] is accepted with every
    [eps2 >= eps1], a tensor rejected with [eps2] is rejected with every
    [eps1 <= eps2], and a tensor accepted by an instance is accepted by
    every instance of the same [tensorial_size] and a smaller [alpha]. *)
Theorem in_manifold_eigen_monotone (self self' : Hurwitz R) m k
    (A : tensor R m k) (eps1 eps2 : R) :
  eps1 <= eps2 ->
  [/\ outcome (in_manifold_eigen eigvals self A eps1) = Ok true ->
        outcome (in_manifold_eigen eigvals self A eps2) = Ok true,
      outcome (in_manifold_eigen eigvals self A eps2) = Ok false ->
        outcome (in_manifold_eigen eigvals self A eps1) = Ok false
    & tensorial_size self' = tensorial_size self ->
      alpha self' <= alpha self ->
      outcome (in_manifold_eigen eigvals self A eps1) = Ok true ->
      outcome (in_manifold_eigen eigvals self' A eps1) = Ok true].
Proof.
move=> le12; split; last 1 first.
- move=> tsE leA; rewrite /outcome !in_manifold_eigen_run tsE.
  case: ifP => // _; case: (eigvals A) => [eig|] //= [allz]; congr Ok.
  apply: sub_all allz => z le1; apply: le_trans le1 _.
  by rewrite lerD2r lerN2.
- rewrite /outcome !in_manifold_eigen_run; case: ifP => // _.
  case: (eigvals A) => [eig|] //= [allz]; congr Ok.
  by apply: sub_all allz => z le1; apply: le_trans le1 _; rewrite lerD2l.
- exact: in_manifold_eigen_mono.
Qed.

(** *** The boundary of the manifold and the gate *)

(** X13.  On an instance of dimension [n >= 1] without batch dimensions,
    the matrix [-alpha I] passes [in_manifold_eigen] with every tolerance
    [eps >= 0], and [right_inverse] does not return on it, with or without
    the membership check, when the solver returns feasible values only:
    the constraint of the solve is strict where the test is not. *)
Theorem boundary_not_inverted (self : Hurwitz R) (eps : R)
    (check_in_manifold : bool) :
  eigvals_sound eigvals (n self) -> eigvals_complete eigvals (n self) ->
  eigvals_total eigvals (n self) -> solver_sound cvx_solve (n self) ->
  (0 < n self)%N -> tensorial_size self = [::] -> 0 <= eps ->
  outcome (in_manifold_eigen eigvals self
             (of_matrix ((- alpha self) *: 1%:M : 'M_(n self))) eps) = Ok true
  /\ is_ok (outcome (right_inverse eigvals cvx_solve self
                       (of_matrix ((- alpha self) *: 1%:M))
                       check_in_manifold)) = false.
Proof.
move=> sound complete total ssound n0 ts0 eps0; split.
  exact: boundary_in_manifold.
exact: boundary_no_right_inverse.
Qed.

Lemma right_inverse_unchecked_log (self : Hurwitz R)
    (A : tensor R (n self) (n self)) (log : seq (event R)) :
  right_inverse eigvals cvx_solve self A false log =
  ((right_inverse eigvals cvx_solve self A false [::]).1,
   log ++ (right_inverse eigvals cvx_solve self A false [::]).2).
Proof.
rewrite !right_inverse_run !submersion_inv_unchecked.
case: (numpy A) => [A_|e] /=; last by rewrite cats0.
rewrite -cats1.
case: (cvx_solve _ _) => [[status [P|]]|] //=;
  case: (infeasible_or_unbounded status) => //=.
case: (P \in unitmx) => //=.
case: (product_right_inverse _ _) => [Xs|e] //.
by case: Xs => [|X1 [|X2 [|X3 [|X4 Xs]]]].
Qed.

(** X14.  The flag [check_in_manifold] only adds the gate: when the test
    with tolerance [1e-8] accepts [A], [right_inverse(A, True)] ends as
    [right_inverse(A, False)] does, after one more call, of
    [torch.linalg.eigvals], at the head of the same trace; and with the
    flag set the solver is called only after the test accepted [A]. *)
Theorem check_only_gates (self : Hurwitz R) (A : tensor R (n self) (n self)) :
  (outcome (in_manifold_eigen eigvals self A (float_1e_8 R)) = Ok true ->
     outcome (right_inverse eigvals cvx_solve self A true)
       = outcome (right_inverse eigvals cvx_solve self A false)
     /\ trace (right_inverse eigvals cvx_solve self A true)
        = Eigvals A :: trace (right_inverse eigvals cvx_solve self A false))
  /\ (has is_solve (trace (right_inverse eigvals cvx_solve self A true)) ->
      outcome (in_manifold_eigen eigvals self A (float_1e_8 R)) = Ok true).
Proof.
rewrite /outcome /trace right_inverse_checked in_manifold_eigen_run.
case: ifP => _ /=; first by split.
case: (eigvals A) => [eig|] /=; last by split.
case: (all _ eig) => /=; last by split.
by split=> // _; rewrite right_inverse_unchecked_log.
Qed.

(** *** From the factors to the inverse and back *)

Lemma pd_form_of_inverse d (P : 'M[R]_d) (c : R) :
  0 < c -> symmetric P -> P \in unitmx ->
  (forall x, c * dotp x x <= quad_form (invmx P) x x) -> is_psd P.
Proof.
move=> c0 symP unitP boundP; split=> // y.
have -> : quad_form P y y = quad_form (invmx P) (y *m P) (y *m P).
  by rewrite [RHS]quad_formE mulmxK // dotpC -quad_formE.
by apply: le_trans (boundP _); rewrite mulr_ge0 ?dotp_ge0 // ltW.
Qed.

Lemma of_matrix_mem m k (A : 'M[R]_(m, k)) (on : 'M[R]_(m, k) -> Prop) :
  on A -> forall a, a \in mats (of_matrix A) -> on a.
Proof. by move=> onA a; rewrite /of_matrix /= inE => /eqP->. Qed.


End Further.

(** ** The further properties at the instance *)

Module ScalarFurther.
Import Scalar.

(** The instance [Hurwitz((1, 1), alpha=1, triv="expm")] as the constructor
    builds it, and [Hurwitz((1, 1), alpha=0.5)]. *)
Definition hz_expm : Hurwitz rat :=
  @MkHurwitz rat 1 [:: gram 1; gram 1; skew1 1] [::] 1.

Definition hz_half : Hurwitz rat :=
  @MkHurwitz rat 1 [:: psd1; psd1; skew1 1] [::] (half rat).

Lemma init_expm :
  __init__ PSD1 skew1 [:: 1%N; 1%N] (1 : rat) "expm"%string = Ok hz_expm.
Proof. by []. Qed.

Lemma init_zero :
  __init__ PSD1 skew1 [:: 3%N; 3%N] (0 : rat) "expm"%string
  = Error (ValueError alpha_msg).
Proof. by []. Qed.

Lemma gram_shape d : shape_preserving (gram d).
Proof. by []. Qed.

Lemma gram_count d : count_preserving (gram d).
Proof. by move=> X; rewrite /= size_map. Qed.

Lemma skew1_count d : count_preserving (skew1 d).
Proof. by move=> X; rewrite /= size_map. Qed.

Lemma quad_form_scalar (R : realFieldType) d (a : R) (x : 'rV[R]_d) :
  quad_form (a%:M : 'M[R]_d) x x = a * dotp x x.
Proof. by rewrite -scalemx1 quad_formZm quad_form1. Qed.

Lemma is_pd_scalar (R : realFieldType) d (a : R) :
  0 < a -> is_pd (a%:M : 'M[R]_d).
Proof.
move=> a0; split=> [|x xn0]; first by rewrite /symmetric tr_scalar_mx.
by rewrite quad_form_scalar mulr_gt0 // dotp_gt0.
Qed.

Lemma skew0 (R : realFieldType) d : skew_symmetric (0 : 'M[R]_d).
Proof. by rewrite /skew_symmetric trmx0 oppr0. Qed.

Lemma submersion_mx_scalar (R : realFieldType) d (a q p : R) :
  submersion_mx a q%:M p%:M 0 = (p * (- half R * q) - a)%:M :> 'M[R]_d.
Proof.
rewrite /submersion_mx addr0 scale_scalar_mx -scalar_mxM scalemx1.
by rewrite -raddfB.
Qed.

Lemma margin_at_submersion (R : realFieldType) :
  2%:R * (1 * (- half R * 2%:R) - 1) + 2%:R <= - float_1e_8 R.
Proof. by rewrite /float_1e_8 /half; lra. Qed.

Lemma half_le1 (R : realFieldType) : half R <= 1.
Proof. by rewrite /half; lra. Qed.


(** X1 on the sizes [(2, 3, 3)], [(5,)] and [(3, 6)]. *)
Lemma parse_size_inv_witness :
  [/\ parse_size [:: 2%N; 3%N; 3%N] = Ok (3%N, [:: 2%N]),
      (size [:: 5%N] < 2)%N /\ VectorError cls_name [:: 5%N]
                               = VectorError cls_name [:: 5%N]
      \/ (exists ts d k, [/\ [:: 5%N] = ts ++ [:: d; k], d != k
            & VectorError cls_name [:: 5%N] = NonSquareError cls_name [:: 5%N]])
    & (size [:: 3%N; 6%N] < 2)%N /\ NonSquareError cls_name [:: 3%N; 6%N]
                                    = VectorError cls_name [:: 3%N; 6%N]
      \/ (exists ts d k, [/\ [:: 3%N; 6%N] = ts ++ [:: d; k], d != k
            & NonSquareError cls_name [:: 3%N; 6%N]
              = NonSquareError cls_name [:: 3%N; 6%N]])].
Proof.
split.
- have [H _] := parse_size_inv [:: 2%N; 3%N; 3%N].
  exact: (proj2 (H 3%N [:: 2%N]) (erefl _)).
- have [_ H] := parse_size_inv [:: 5%N].
  exact: (H (VectorError cls_name [:: 5%N]) (erefl _)).
- have [_ H] := parse_size_inv [:: 3%N; 6%N].
  exact: (H (NonSquareError cls_name [:: 3%N; 6%N]) (erefl _)).
Defined.


(** X3 on the sizes [(3, 6)] and [(3, 3)], with a retraction the PSD
    constructor refuses and with [alpha = 0]. *)
Lemma init_errors_witness :
  [/\ __init__ PSD1 skew1 [:: 3%N; 6%N] (2%:R : rat) "expm"%string
        = Error (NonSquareError cls_name [:: 3%N; 6%N]),
      __init__ PSD1 skew1 [:: 3%N; 3%N] (- 1 : rat) "exp"%string
        = Error (ValueError "triv")
    & [\/ parse_size [:: 3%N; 3%N] = Error (ValueError alpha_msg),
          exists d, PSD1 d [:: 3%N; 3%N] "expm"%string
                    = Error (ValueError alpha_msg)
        | (0 : rat) <= 0 /\ ValueError alpha_msg = ValueError alpha_msg]].
Proof.
split.
- have [H _ _] := init_errors PSD1 skew1 [:: 3%N; 6%N] (2%:R : rat)
    "expm"%string.
  exact: (H _ (erefl _)).
- have [_ H _] := init_errors PSD1 skew1 [:: 3%N; 3%N] (- 1 : rat)
    "exp"%string.
  exact: (H 3%N [::] _ (erefl _) (erefl _)).
- have [_ _ H] := init_errors PSD1 skew1 [:: 3%N; 3%N] (0 : rat)
    "expm"%string.
  exact: (H _ init_zero).
Defined.

(** X5 at the instance the constructor builds, on the inputs [[3]]. *)
Lemma forward_total_witness :
  exists2 A, forward hz_expm (scalar 3%:R) (scalar 3%:R) (scalar 3%:R) = Ok A
           & batch A = tensorial_size hz_expm /\ well_shaped A.
Proof.
have [Mq [psdE fwdE shape]] :=
  forward_total (scalar 3%:R : tensor rat (n hz_expm) (n hz_expm))
    (scalar 3%:R) (scalar 3%:R) init_expm.
exists (submersion hz_expm (m_forward Mq (scalar 3%:R))
          (m_forward Mq (scalar 3%:R))
          (m_forward (skew1 (n hz_expm)) (scalar 3%:R))); first exact: fwdE.
have MqE : gram 1 = Mq by case: psdE.
apply: shape fwdE; rewrite -?MqE.
- exact: gram_shape.
- exact: gram_count.
- exact: skew1_shape.
- exact: skew1_count.
- split; reflexivity.
- by split; rewrite /well_shaped /= big_nil.
Defined.


(** X6 on the factors [Q = P = [3]] and [S = [0]]. *)
Lemma submersion_strictly_stable_witness :
  (submersion_mx (alpha hz1) 3%:R%:M 3%:R%:M 0 : 'M[rat]_1) ord0 ord0
  < - alpha hz1.
Proof.
set c := submersion_mx (alpha hz1) 3%:R%:M 3%:R%:M 0.
have three : 0 < (3%:R : rat) by rewrite ltr0n.
apply: (@submersion_strictly_stable rat hz1 (of_matrix 3%:R%:M)
          (of_matrix 3%:R%:M) (of_matrix 0) _ _ _ c (c ord0 ord0, 0)).
- exact: of_matrix_mem (is_pd_scalar 1 three).
- exact: of_matrix_mem (is_pd_scalar 1 three).
- exact: of_matrix_mem (skew0 rat 1).
- by rewrite submersion_of_matrix inE.
- by have := @scalar_is_eigen rat 1 (c ord0 ord0) isT; rewrite -scalar11.
Defined.

(** X7 at [[-2]], with the margins [0.5] and [1e-8]. *)
Lemma solve_certifies_stability_witness :
  (forall z, eigen ((- 2%:R)%:M : 'M[rat]_1)^T z -> real z < - alpha hz1)
  /\ (forall z, eigen ((- 2%:R)%:M : 'M[rat]_1)^T z -> real z < - alpha hz1).
Proof.
have [H1 H2] := @solve_certifies_stability rat eigvals1 cvx_solve1 hz1
  (- 2%:R)%:M false cvx_solve1_sound.
have [le2 le1] := half_margin rat.
have half0 : 0 < half rat by rewrite /half invr_gt0 ltr0n.
split.
- apply: (H1 (half rat) "SCS"%string half0).
  by rewrite /outcome (submersion_inv_scalar1_ok _ _ le2 le1).
- apply: H2.
  by rewrite /outcome (right_inverse_scalar1 false (margin_at_minus2 rat)).
Defined.



Lemma cvx_solve1_on_submersion (solver : string) :
  cvx_solve1 solver
    (sdp hz1 (submersion_mx (alpha hz1) 2%:R%:M 1%:M 0) (float_1e_8 rat))
  = Some ("optimal"%string, Some 1%:M).
Proof.
rewrite submersion_mx_scalar.
exact: cvx_solve_scalar1_ok (margin_at_submersion rat) (float_1e_8_le1 rat).
Qed.

Lemma form_of_two (x : 'rV[rat]_1) :
  1 * dotp x x <= quad_form (2%:R%:M : 'M[rat]_1) x x.
Proof.
by rewrite quad_form_scalar ler_wpM2r ?dotp_ge0 // ler1n.
Qed.

Lemma form_of_inverse_one (x : 'rV[rat]_1) :
  1 * dotp x x <= quad_form (invmx 1%:M : 'M[rat]_1) x x.
Proof. by rewrite invmx1 quad_form1 mul1r. Qed.


(** X10 on the same factors, with [c = 1] and the margin [1e-8]. *)
Lemma sdp_feasible_on_submersion_witness :
  feasible (sdp hz1 (submersion_mx (alpha hz1) 2%:R%:M 1%:M 0)
              (float_1e_8 rat))
           ((float_1e_8 rat / 1) *: invmx 1%:M).
Proof.
apply: (@sdp_feasible_on_submersion rat hz1 2%:R%:M 1%:M 0 (float_1e_8 rat) 1).
- exact: ltW (float_1e_8_gt0 rat).
- exact: ltr01.
- exact: symmetric11.
- exact: skew0.
- exact: symmetric11.
- exact: unitmx1.
- exact: form_of_two.
- exact: form_of_inverse_one.
Defined.

(** X11 at [[-2]], with the default tolerance. *)
Lemma in_manifold_eigen_meaning_witness :
  exists2 b : bool,
    outcome (in_manifold_eigen eigvals1 hz1 (scalar (- 2%:R)) (float_1e_6 rat))
      = Ok b
    & b <-> batch (scalar (- 2%:R)) = tensorial_size hz1
            /\ forall a z, a \in mats (scalar (- 2%:R)) -> eigen a z ->
                 real z <= - alpha hz1 + float_1e_6 rat.
Proof.
apply: (@in_manifold_eigen_meaning rat eigvals1 hz1 1 (scalar (- 2%:R))
          (float_1e_6 rat)).
- exact: eigvals1_sound.
- exact: eigvals1_complete.
- exact: eigvals1_total.
Defined.

(** X12 at [[-2]] and [[0]], with the tolerances [1e-8] and [1e-6], and
    with the margins 1 and 0.5. *)
Lemma in_manifold_eigen_monotone_witness :
  [/\ outcome (in_manifold_eigen eigvals1 hz1 (scalar (- 2%:R))
                 (float_1e_6 rat)) = Ok true,
      outcome (in_manifold_eigen eigvals1 hz1 (scalar 0) (float_1e_8 rat))
        = Ok false
    & outcome (in_manifold_eigen eigvals1 hz_half (scalar (- 2%:R))
                 (float_1e_8 rat)) = Ok true].
Proof.
have le86 := ltW (float_1e_8_lt_1e_6 rat).
have [H1 _ H3] := @in_manifold_eigen_monotone rat eigvals1 hz1 hz_half 1 1
  (scalar (- 2%:R)) (float_1e_8 rat) (float_1e_6 rat) le86.
have [_ H2 _] := @in_manifold_eigen_monotone rat eigvals1 hz1 hz_half 1 1
  (scalar 0) (float_1e_8 rat) (float_1e_6 rat) le86.
have [fails8 fails6] := zero_outside rat.
have in8 : outcome (in_manifold_eigen eigvals1 hz1 (scalar (- 2%:R))
                      (float_1e_8 rat)) = Ok true.
  rewrite /outcome in_manifold_eigen_scalar1.
  by rewrite (margin_in_gate (margin_at_minus2 rat)).
split.
- exact: H1 in8.
- by apply: H2; rewrite /outcome in_manifold_eigen_scalar1 fails6.
- exact: H3 (erefl _) (half_le1 rat) in8.
Defined.

(** X13 at [Hurwitz((1, 1), alpha=1)], with the default tolerance. *)
Lemma boundary_not_inverted_witness :
  outcome (in_manifold_eigen eigvals1 hz1
             (of_matrix ((- alpha hz1) *: 1%:M : 'M_(n hz1))) (float_1e_6 rat))
    = Ok true
  /\ is_ok (outcome (right_inverse eigvals1 cvx_solve1 hz1
                       (of_matrix ((- alpha hz1) *: 1%:M)) true)) = false.
Proof.
apply: (@boundary_not_inverted rat eigvals1 cvx_solve1 hz1 (float_1e_6 rat)
          true).
- exact: eigvals1_sound.
- exact: eigvals1_complete.
- exact: eigvals1_total.
- exact: cvx_solve1_sound.
- reflexivity.
- reflexivity.
- exact: ltW (float_1e_6_gt0 rat).
Defined.

(** X14 at [[-2]]. *)
Lemma check_only_gates_witness :
  [/\ outcome (right_inverse eigvals1 cvx_solve1 hz1 (scalar (- 2%:R)) true)
        = outcome (right_inverse eigvals1 cvx_solve1 hz1 (scalar (- 2%:R))
                     false),
      trace (right_inverse eigvals1 cvx_solve1 hz1 (scalar (- 2%:R)) true)
        = Eigvals (scalar (- 2%:R))
          :: trace (right_inverse eigvals1 cvx_solve1 hz1 (scalar (- 2%:R))
                      false)
    & outcome (in_manifold_eigen eigvals1 hz1 (scalar (- 2%:R))
                 (float_1e_8 rat)) = Ok true].
Proof.
have [H1 H2] := @check_only_gates rat eigvals1 cvx_solve1 hz1
  (scalar (- 2%:R)).
have in8 : outcome (in_manifold_eigen eigvals1 hz1 (scalar (- 2%:R))
                      (float_1e_8 rat)) = Ok true.
  rewrite /outcome in_manifold_eigen_scalar1.
  by rewrite (margin_in_gate (margin_at_minus2 rat)).
have [r1 r2] := H1 in8.
split; [exact: r1 | exact: r2 |].
apply: H2.
by rewrite /trace (right_inverse_scalar1 true (margin_at_minus2 rat)).
Defined.


End ScalarFurther.

(** ** Where the sub-manifolds decide *)

Module Submanifolds.
Import Scalar.

(** A PSD manifold on 1 x 1 matrices whose [right_inverse] tests membership
    with a tolerance [1e-6] of its own: it accepts the entries that are at
    least the tolerance. *)
Definition psd_tol : Manifold rat 1 :=
  MkManifold
    (m_forward psd1)
    (fun X => if all (fun x : 'M[rat]_1 => float_1e_6 rat <= x ord0 ord0)
                     (mats X)
              then Ok X else Error InManifoldError).

(** [Hurwitz((1, 1), alpha=1)] over it. *)
Definition hz_tol : Hurwitz rat :=
  @MkHurwitz rat 1 [:: psd_tol; psd_tol; skew1 1] [::] 1.

(** [-1 - 0.5e-8], inside the manifold of margin 1 by half the margin of
    the solve. *)
Definition a_tol : rat := - 1 - half rat * float_1e_8 rat.

Lemma margin_tol (R : realFieldType) :
  2%:R * (- 1 - half R * float_1e_8 R) + 2%:R <= - float_1e_8 R.
Proof. by rewrite /float_1e_8 /half; lra. Qed.

Lemma below_tol (R : realFieldType) :
  (float_1e_6 R <= - (2%:R * (- 1 - half R * float_1e_8 R) + 2%:R)) = false.
Proof.
by apply/negbTE; rewrite -ltNge /float_1e_8 /float_1e_6 /half; lra.
Qed.

Lemma product_right_inverse_head (R : realFieldType) d
    (M1 : Manifold R d) (Ms : seq (Manifold R d)) (X : tensor R d d)
    (Xs : seq (tensor R d d)) (e : exn) :
  m_right_inverse M1 X = Error e ->
  product_right_inverse (M1 :: Ms) (X :: Xs) = Error e.
Proof. by move=> /= ->. Qed.

Lemma psd_tol_below (a : 'M[rat]_1) :
  (float_1e_6 rat <= a ord0 ord0) = false ->
  m_right_inverse psd_tol (of_matrix a) = Error InManifoldError.
Proof.
move=> lt; cbv beta iota delta [psd_tol m_right_inverse of_matrix mats all].
by rewrite lt.
Qed.

Lemma psd_tol_rejects :
  m_right_inverse psd_tol (of_matrix (Q1 a_tol)) = Error InManifoldError.
Proof.
apply: psd_tol_below; rewrite Q1_entry.
exact: (below_tol rat).
Qed.

(** The solve does not look at the sub-manifolds. *)
Lemma lyapunov_any (Ms : seq (Manifold rat 1)) (A P : 'M[rat]_1) :
  lyapunov (@MkHurwitz rat 1 Ms [::] 1) A P = lyapunov hz1 A P.
Proof. by []. Qed.

Lemma sdp_any (Ms : seq (Manifold rat 1)) (A : 'M[rat]_1) (eps : rat) :
  sdp (@MkHurwitz rat 1 Ms [::] 1) A eps = sdp hz1 A eps.
Proof. by []. Qed.

Lemma submersion_inv_any (Ms : seq (Manifold rat 1)) (a eps : rat)
    (solver : string) (log : seq (event rat)) :
  2%:R * a + 2%:R <= - eps -> eps <= 1 ->
  submersion_inv eigvals1 cvx_solve1 (@MkHurwitz rat 1 Ms [::] 1) (scalar a)
    false eps solver log =
  (Ok (of_matrix (Q1 a), of_matrix (invmx 1%:M), of_matrix (S1 a)),
   rcons log (Solve solver (sdp (@MkHurwitz rat 1 Ms [::] 1) a%:M eps))).
Proof.
move=> le8 le1; rewrite submersion_inv_unchecked numpy_scalar.
cbv beta iota zeta.
rewrite [X in cvx_solve1 _ X]sdp_any (cvx_solve_scalar1_ok solver le8 le1) /=.
by rewrite unitmx1 lyapunov_any.
Qed.

Lemma right_inverse_tol :
  right_inverse eigvals1 cvx_solve1 hz_tol (scalar a_tol) false [::]
  = (Error InManifoldError,
     [:: Solve "MOSEK" (sdp hz_tol a_tol%:M (float_1e_8 rat))]).
Proof.
rewrite right_inverse_run /hz_tol.
rewrite (submersion_inv_any _ "MOSEK" [::] (margin_tol rat)
           (float_1e_8_le1 rat)).
by rewrite (product_right_inverse_head _ _ psd_tol_rejects).
Qed.


(** C7 as stated fails: the square size [(3, 3)] and [alpha = 1 > 0] do
    not construct an instance when the PSD constructor raises, here on a
    retraction it does not know; its exception leaves [Hurwitz.__init__]. *)
Lemma init_fails_in_submanifold :
  [/\ parse_size [:: 3%N; 3%N] = Ok (3%N, [::]), 0 < (1 : rat)
    & __init__ PSD1 skew1 [:: 3%N; 3%N] (1 : rat) "qr"%string
      = Error (ValueError "triv")].
Proof. by split=> //; rewrite ltr01. Qed.

End Submanifolds.

(** ** The arithmetic of the code: float32 *)

From Stdlib Require Import ZArith SpecFloat.

Module Float32.

(** IEEE 754 binary32, the default dtype of torch, rounding to nearest,
    ties to even. *)
Definition prec : Z := 24%Z.
Definition emax : Z := 128%Z.
Definition f32 : Type := spec_float.

Definition add : f32 -> f32 -> f32 := SFadd prec emax.
Definition sub : f32 -> f32 -> f32 := SFsub prec emax.
Definition mul : f32 -> f32 -> f32 := SFmul prec emax.
Definition zero : f32 := S754_zero false.

(** The float32 nearest to [m * 2^e]. *)
Definition dyadic (m e : Z) : f32 := binary_normalize prec emax m e false.
Definition one : f32 := dyadic 1 0.

(** A [(d, d)] tensor, as its rows. *)
Definition fmatrix : Type := seq (seq f32).

Definition column (j : nat) (A : fmatrix) : seq f32 :=
  [seq nth zero r j | r <- A].

(** [A.transpose(-2, -1)]. *)
Definition transpose (d : nat) (A : fmatrix) : fmatrix :=
  [seq column j A | j <- iota 0 d].

(** A row times a column, as the kernel behind [@] computes it: [dot]
    rounds every product and sums in the order of the index, [dot_fused]
    accumulates with a fused multiply-add, which rounds once per term. *)
Definition dot (x y : seq f32) : f32 :=
  foldl add zero [seq mul ab.1 ab.2 | ab <- zip x y].

Definition mul_exact (x y : f32) : f32 :=
  match x, y with
  | S754_finite sx mx ex, S754_finite sy my ey =>
      S754_finite (xorb sx sy) (mx * my)%positive (ex + ey)%Z
  | _, _ => mul x y
  end.

Definition dot_fused (x y : seq f32) : f32 :=
  foldl (fun acc ab => add acc (mul_exact ab.1 ab.2)) zero (zip x y).

(** [A @ B], [A + B], [A - B], [c * A], [torch.eye(d)]. *)
Definition matmul (kernel : seq f32 -> seq f32 -> f32) (d : nat)
    (A B : fmatrix) : fmatrix :=
  [seq [seq kernel r c | c <- transpose d B] | r <- A].
Definition pointwise (f : f32 -> f32 -> f32) (A B : fmatrix) : fmatrix :=
  [seq [seq f ab.1 ab.2 | ab <- zip rs.1 rs.2] | rs <- zip A B].
Definition scale (c : f32) (A : fmatrix) : fmatrix :=
  [seq [seq mul c a | a <- r] | r <- A].
Definition eye (d : nat) : fmatrix :=
  [seq [seq if i == j then one else zero | j <- iota 0 d] | i <- iota 0 d].

(** [Hurwitz.sample] on an instance without batch dimensions, of size
    [(d, d)] and margin [alpha]: every operation rounds to float32. *)
Definition sample (kernel : seq f32 -> seq f32 -> f32) (rng : Type)
    (d : nat) (alpha : f32) (init_ : rng -> fmatrix * rng) (g : rng)
  : fmatrix * rng :=
  let (X_p, g) := init_ g in
  let (X_q, g) := init_ g in
  let (X_s, g) := init_ g in
  let P := matmul kernel d X_p (transpose d X_p) in
  let Q := matmul kernel d X_q (transpose d X_q) in
  let S := pointwise sub X_s (transpose d X_s) in
  (pointwise sub
     (matmul kernel d P (pointwise add (scale (dyadic (-1) (-1)) Q) S))
     (scale alpha (eye d)), g).

(** *** The numbers the floats stand for *)

Section Value.

Variable R : realFieldType.

Fixpoint pos_value (p : positive) : R :=
  match p with
  | xH => 1
  | xO p' => 2%:R * pos_value p'
  | xI p' => 2%:R * pos_value p' + 1
  end.

Definition pow2 (e : Z) : R :=
  match e with
  | Z0 => 1
  | Zpos p => 2%:R ^+ Pos.to_nat p
  | Zneg p => (2%:R ^+ Pos.to_nat p)^-1
  end.

(** The value of a finite float; infinities and NaN have none, zero is
    taken. *)
Definition value (x : f32) : R :=
  match x with
  | S754_finite s m e => (if s then - 1 else 1) * pos_value m * pow2 e
  | _ => 0
  end.

Definition finite (x : f32) : bool :=
  match x with
  | S754_zero _ | S754_finite _ _ _ => true
  | _ => false
  end.

Definition to_mx (d : nat) (A : fmatrix) : 'M[R]_d :=
  \matrix_(i, j) value (nth zero (nth [::] A i) j).

End Value.

(** *** A sample that leaves the manifold *)

(** Three matrices for an initializer to draw:
    [X_p = [[1, 2^-12], [1 - 2^-24, 2^-12]]],
    [X_q = [[2^12, 2^12], [2^12, -2^12]]] and [X_s = [[0, 2^24], [0, 0]]]. *)
Definition X_p : fmatrix :=
  [:: [:: one; dyadic 1 (-12)]; [:: dyadic 16777215 (-24); dyadic 1 (-12)]].
Definition X_q : fmatrix :=
  [:: [:: dyadic 1 12; dyadic 1 12]; [:: dyadic 1 12; dyadic (-1) 12]].
Definition X_s : fmatrix :=
  [:: [:: zero; dyadic 1 24]; [:: zero; zero]].

(** An initializer that writes [X_p], [X_q], [X_s], in this order. *)
Definition init_ill (g : nat) : fmatrix * nat :=
  (nth X_s [:: X_p; X_q] g, g.+1).

(** [[[-2^25, 0], [-2^25, 0]]]. *)
Definition A_ill : fmatrix :=
  [:: [:: dyadic (-1) 25; zero]; [:: dyadic (-1) 25; zero]].

(** The rounded Gram matrix of [X_p] is [[[1, 1], [1, 1 - 2^-24]]], of
    negative determinant: the exact one has [1 + 2^-24] and
    [1 - 2^-24 + 2^-48] on its diagonal. *)
Lemma gram_ill :
  matmul dot 2 X_p (transpose 2 X_p)
    = [:: [:: one; one]; [:: one; dyadic 16777215 (-24)]]
  /\ matmul dot_fused 2 X_p (transpose 2 X_p)
     = [:: [:: one; one]; [:: one; dyadic 16777215 (-24)]].
Proof. by split; vm_compute. Qed.

Lemma sample_ill :
  (sample dot 2 one init_ill 0%N).1 = A_ill
  /\ (sample dot_fused 2 one init_ill 0%N).1 = A_ill.
Proof. by split; vm_compute. Qed.

Lemma finite_ill : all (all finite) A_ill.
Proof. by vm_compute. Qed.

Section Reading.

Variable R : realFieldType.

Lemma eigen_equal_rows (B : 'M[R]_2) :
  B ord0 ord0 = B ord_max ord0 -> (forall i, B i ord_max = 0) ->
  eigen B (0, 0).
Proof.
move=> rows col.
exists (\row_j (if j == ord0 then 1 else - 1)), 0; split.
- apply/orP; left; apply/eqP=> /rowP/(_ ord0); rewrite !mxE eqxx.
  by move/eqP; rewrite oner_eq0.
- rewrite /= !scale0r subr0; apply/rowP=> j; rewrite !mxE.
  rewrite big_ord_recl big_ord1 !mxE /=.
  have -> : fintype.lift ord0 (ord0 : 'I_1) = ord_max :> 'I_2 by apply: val_inj.
  case: (eqVneq j ord0) => [->|jn0].
    by rewrite rows mul1r mulN1r subrr.
  have -> : j = ord_max.
    by apply: val_inj; case: j jn0 => [[|[|]]].
  by rewrite !col !mulr0 addr0.
- by rewrite /= mul0mx !scale0r addr0.
Qed.

Lemma eigen_ill : eigen (to_mx R 2 A_ill) (0, 0).
Proof.
apply: eigen_equal_rows => [|i]; rewrite !mxE //.
by case: i => [[|[|]]].
Qed.

Lemma rejected_ill
    (eigvals : forall m k, tensor R m k -> option (seq (complex R)))
    (self : Hurwitz R) :
  tensorial_size self = [::] -> alpha self = 1 ->
  eigvals_complete eigvals 2 ->
  outcome (in_manifold_eigen eigvals self (of_matrix (to_mx R 2 A_ill))
             (float_1e_6 R)) <> Ok true.
Proof.
move=> tsE aE complete; rewrite /outcome in_manifold_eigen_run /= tsE eqxx.
case E: (eigvals _ _ _) => [eig|] //= [/allP/(_ (0, 0))].
have -> : (0, 0) \in eig.
  by apply: (complete _ _ E _ _ (mem_head _ _)); apply: eigen_ill.
by rewrite aE /= (Scalar.zero_outside R).2 => /(_ isT).
Qed.

End Reading.

(** The instance [Hurwitz((2, 2), alpha=1)]. *)
Definition hz2 : Hurwitz rat :=
  @MkHurwitz rat 2 [:: Scalar.gram 2; Scalar.gram 2; Scalar.skew1 2] [::] 1.


End Float32.
